(** * RealTimeWavPlayer (src/audio/audio_player.py)

    A shallow embedding of the playback engine: the player object, the
    bounded queue it shares with its worker thread, the worker loop and the
    public methods, run under an explicit scheduler that interleaves the
    caller thread with the worker threads. *)

From Stdlib Require Import Strings.Byte.
From stdpp Require Import base tactics option list numbers.

Set Default Proof Using "Type".
Set Warnings "-clear-no-such-hyp".

(** ** Values *)

(** A chunk is a Python [bytes] object.  The queue holds chunks and the
    [None] that [stop] puts to signal the worker; [add_chunk] puts whatever
    it is given, so it too takes an item. *)
Abbreviation chunk := (list byte).
Abbreviation item := (option chunk).

(** The PyAudio sample formats that [set_audio_format] can select. *)
Inductive pa_format := paInt8 | paInt16 | paInt24 | paInt32.

Definition pa_sample_bits (f : pa_format) : Z :=
  match f with
  | paInt8 => 8%Z
  | paInt16 => 16%Z
  | paInt24 => 24%Z
  | paInt32 => 32%Z
  end.

(** An output stream as [PyAudio.open] was asked for it. *)
Record Stream := mkStream {
  st_format : option pa_format;
  st_channels : option Z;
  st_rate : option Z;
  st_frames_per_buffer : Z
}.

(** ** queue.Queue(maxsize=100) *)

Definition maxsize : nat := 100.

Record Queue := mkQueue {
  items : list item;
  unfinished_tasks : nat
}.

Definition Queue_new : Queue := mkQueue [] 0.

Definition qsize (q : Queue) : nat := length (items q).

Definition Queue_empty (q : Queue) : bool :=
  match items q with
  | [] => true
  | _ :: _ => false
  end.

Definition Queue_full (q : Queue) : bool := bool_decide (maxsize ≤ qsize q).

(** [put(x, block=False)]: [None] stands for [queue.Full]. *)
Definition put_nowait (q : Queue) (x : item) : option Queue :=
  if Queue_full q then None
  else Some (mkQueue (items q ++ [x]) (S (unfinished_tasks q))).

(** [get_nowait()], and [get(timeout=...)] once it returns or gives up:
    [None] stands for [queue.Empty]. *)
Definition get_nowait (q : Queue) : option (item * Queue) :=
  match items q with
  | [] => None
  | x :: rest => Some (x, mkQueue rest (unfinished_tasks q))
  end.

(** [task_done()]: [None] stands for the [ValueError] raised when it is
    called more often than items were put. *)
Definition task_done (q : Queue) : option Queue :=
  match unfinished_tasks q with
  | O => None
  | S n => Some (mkQueue (items q) n)
  end.

(** ** The player object *)

Record player := mkPlayer {
  chunk_size : Z;
  p_terminated : bool;            (* self.p, after p.terminate() *)
  stream : option Stream;
  audio_queue : Queue;
  is_playing : bool;
  play_thread : option nat;       (* index in the thread table *)
  sample_width : option Z;
  channels : option Z;
  sample_rate : option Z;
  format : option pa_format
}.

Definition set_stream (p : player) (v : option Stream) : player :=
  mkPlayer (chunk_size p) (p_terminated p) v (audio_queue p) (is_playing p)
    (play_thread p) (sample_width p) (channels p) (sample_rate p) (format p).

Definition set_audio_queue (p : player) (v : Queue) : player :=
  mkPlayer (chunk_size p) (p_terminated p) (stream p) v (is_playing p)
    (play_thread p) (sample_width p) (channels p) (sample_rate p) (format p).

Definition set_is_playing (p : player) (v : bool) : player :=
  mkPlayer (chunk_size p) (p_terminated p) (stream p) (audio_queue p) v
    (play_thread p) (sample_width p) (channels p) (sample_rate p) (format p).

Definition set_play_thread (p : player) (v : option nat) : player :=
  mkPlayer (chunk_size p) (p_terminated p) (stream p) (audio_queue p)
    (is_playing p) v (sample_width p) (channels p) (sample_rate p) (format p).

Definition set_p_terminated (p : player) (v : bool) : player :=
  mkPlayer (chunk_size p) v (stream p) (audio_queue p) (is_playing p)
    (play_thread p) (sample_width p) (channels p) (sample_rate p) (format p).

(** [__init__(chunk_size=1024)] *)
Definition init (chunk_size : Z) : player :=
  mkPlayer chunk_size false None Queue_new false None None None None None.

Definition default_chunk_size : Z := 1024%Z.

(** [format_mapping.get(sample_width, pyaudio.paInt16)] *)
Definition format_mapping (sample_width : Z) : pa_format :=
  if decide (sample_width = 1%Z) then paInt8
  else if decide (sample_width = 2%Z) then paInt16
  else if decide (sample_width = 3%Z) then paInt24
  else if decide (sample_width = 4%Z) then paInt32
  else paInt16.

(** [set_audio_format] (lines 26-39) *)
Definition set_audio_format (p : player) (sw ch sr : Z) : player :=
  mkPlayer (chunk_size p) (p_terminated p) (stream p) (audio_queue p)
    (is_playing p) (play_thread p) (Some sw) (Some ch) (Some sr)
    (Some (format_mapping sw)).

(** The header fields [extract_wav_info] reads through the [wave] module. *)
Record wav_header := mkHeader {
  getsampwidth : Z;
  getnchannels : Z;
  getframerate : Z
}.

Definition extract_wav_info (p : player) (wf : wav_header) : player * (Z * Z * Z) :=
  (set_audio_format p (getsampwidth wf) (getnchannels wf) (getframerate wf),
   (getsampwidth wf, getnchannels wf, getframerate wf)).

(** Python truth value of a field that is [None] or an integer. *)
Definition truthy (v : option Z) : bool :=
  match v with
  | None => false
  | Some z => negb (z =? 0)%Z
  end.

(** [all([self.sample_width, self.channels, self.sample_rate])] *)
Definition format_is_set (p : player) : bool :=
  truthy (sample_width p) && truthy (channels p) && truthy (sample_rate p).

(** [add_chunk] (lines 94-102) *)
Definition add_chunk (p : player) (x : item) : bool * player :=
  if is_playing p then
    match put_nowait (audio_queue p) x with
    | Some q => (true, set_audio_queue p q)
    | None => (false, p)
    end
  else (false, p).

(** ** Threads

    [_play_worker] runs in a thread of its own.  A worker is at one of the
    program points below; between two of them it touches the state it
    shares with the caller ([is_playing], [audio_queue]) at most once. *)
Inductive wpc :=
  | W_Open                 (* about to open and start the stream *)
  | W_Loop                 (* at [while self.is_playing] *)
  | W_Get                  (* in [audio_queue.get(timeout=0.5)] *)
  | W_Write (c : chunk)    (* about to [stream.write(c)] *)
  | W_TaskDone             (* about to [audio_queue.task_done()] *)
  | W_Close                (* after the loop: stop and close the stream *)
  | W_Clear                (* about to set [is_playing = False] *)
  | W_End.                 (* the thread has ended *)

(** The caller thread is between two method calls, or inside [stop]
    ([closing] tells that [stop] was called by [close]). *)
Inductive mpc :=
  | M_Idle
  | M_StopPut (closing : bool)      (* in [audio_queue.put(None)] *)
  | M_StopJoin (closing : bool)     (* in [play_thread.join(timeout=1.0)] *)
  | M_DrainCheck (closing : bool)   (* at [while not audio_queue.empty()] *)
  | M_DrainGet (closing : bool)     (* about to [get_nowait()] *)
  | M_DrainDone (closing : bool).   (* about to [task_done()] *)

Inductive call :=
  | CSetAudioFormat (sw ch sr : Z)
  | CStart
  | CAddChunk (x : item)
  | CStop
  | CClose.

Inductive result := RNone | RBool (b : bool) | RValueError.

(** What an execution lets one observe. *)
Inductive obs :=
  | OPut (x : item)                 (* an item entered the queue *)
  | OGet (x : item)                 (* an item left the queue *)
  | ODiscard (x : item)             (* [stop] threw the item it took away *)
  | OOpen (st : Stream)             (* a stream was opened and started *)
  | OWrite (c : chunk)              (* [stream.write(c)] returned *)
  | OPrint                          (* "Error playing audio: ..." *)
  | OCloseStream (st : Stream)      (* a stream was stopped and closed *)
  | OThreadError                    (* a worker died of an exception *)
  | OSpawn (tid : nat)              (* a worker thread was started *)
  | ORet (c : call) (r : result).   (* a method returned or raised *)

(** One step of the worker (lines 49-77).  [ok] tells whether the device
    call of this step, if it makes one, succeeds.  An exception inside the
    [try] other than [queue.Empty] (a failed write, a write with
    [self.stream] gone, a [task_done] too many) is printed and breaks the
    loop; one outside it (a failed open, stop or close) ends the thread
    where it is. *)
Definition _play_worker (ok : bool) (p : player) (w : wpc)
  : player * wpc * list obs :=
  match w with
  | W_Open =>
      if ok then
        let st := mkStream (format p) (channels p) (sample_rate p) (chunk_size p) in
        (set_stream p (Some st), W_Loop, [OOpen st])
      else (p, W_End, [OThreadError])
  | W_Loop =>
      if is_playing p then (p, W_Get, []) else (p, W_Close, [])
  | W_Get =>
      match get_nowait (audio_queue p) with
      | None => (p, W_Loop, [])
      | Some (None, q) => (set_audio_queue p q, W_Close, [OGet None])
      | Some (Some c, q) => (set_audio_queue p q, W_Write c, [OGet (Some c)])
      end
  | W_Write c =>
      match stream p with
      | Some _ =>
          if ok then (p, W_TaskDone, [OWrite c]) else (p, W_Close, [OPrint])
      | None => (p, W_Close, [OPrint])
      end
  | W_TaskDone =>
      match task_done (audio_queue p) with
      | Some q => (set_audio_queue p q, W_Loop, [])
      | None => (p, W_Close, [OPrint])
      end
  | W_Close =>
      match stream p with
      | Some st =>
          if ok then (set_stream p None, W_Clear, [OCloseStream st])
          else (p, W_End, [OThreadError])
      | None => (p, W_End, [OThreadError])
      end
  | W_Clear => (set_is_playing p false, W_End, [])
  | W_End => (p, W_End, [])
  end.

(** ** The system: the object, its threads, the caller *)

Record sys := mkSys {
  self : player;
  threads : list wpc;
  caller : mpc
}.

Definition new_player : sys := mkSys (init default_chunk_size) [] M_Idle.

Definition thread_ended (s : sys) (tid : nat) : bool :=
  match threads s !! tid with
  | Some W_End => true
  | _ => false
  end.

(** [start] (lines 79-92): the new thread is the last of the table. *)
Definition start (s : sys) : sys * list obs :=
  if is_playing (self s) then (s, [ORet CStart RNone])
  else if negb (format_is_set (self s)) then (s, [ORet CStart RValueError])
  else
    let tid := length (threads s) in
    (mkSys (set_play_thread (set_is_playing (self s) true) (Some tid))
           (threads s ++ [W_Open]) M_Idle,
     [OSpawn tid; ORet CStart RNone]).

(** The end of [stop], and of [close] after it. *)
Definition stop_return (closing : bool) (s : sys) : sys * list obs :=
  if closing then
    (mkSys (set_p_terminated (self s) true) (threads s) M_Idle, [ORet CClose RNone])
  else (mkSys (self s) (threads s) M_Idle, [ORet CStop RNone]).

(** [stop] (lines 104-120) up to the point where it may have to wait,
    inside [put(None)], which blocks while the queue is full. *)
Definition stop_from (closing : bool) (s : sys) : sys * list obs :=
  if negb (is_playing (self s)) then stop_return closing s
  else (mkSys (set_is_playing (self s) false) (threads s) (M_StopPut closing), []).

Definition stop (s : sys) : sys * list obs := stop_from false s.

(** [close] (lines 122-125) is [stop] and then [p.terminate()]. *)
Definition close (s : sys) : sys * list obs := stop_from true s.

(** [stop] from a point where it waited or looped.  [timeout] tells
    whether the one second of [join] has passed.  A [ValueError] of
    [task_done] is not caught: it leaves [stop], and [close] with it. *)
Definition stop_resume (timeout : bool) (s : sys) : sys * list obs :=
  let p := self s in
  match caller s with
  | M_Idle => (s, [])
  | M_StopPut closing =>
      match put_nowait (audio_queue p) None with
      | None => (s, [])
      | Some q =>
          (mkSys (set_audio_queue p q) (threads s) (M_StopJoin closing), [OPut None])
      end
  | M_StopJoin closing =>
      match play_thread p with
      | None => (mkSys p (threads s) (M_DrainCheck closing), [])
      | Some tid =>
          if thread_ended s tid || timeout
          then (mkSys p (threads s) (M_DrainCheck closing), [])
          else (s, [])
      end
  | M_DrainCheck closing =>
      if Queue_empty (audio_queue p) then stop_return closing s
      else (mkSys p (threads s) (M_DrainGet closing), [])
  | M_DrainGet closing =>
      match get_nowait (audio_queue p) with
      | None => stop_return closing s
      | Some (x, q) =>
          (mkSys (set_audio_queue p q) (threads s) (M_DrainDone closing),
           [OGet x; ODiscard x])
      end
  | M_DrainDone closing =>
      match task_done (audio_queue p) with
      | Some q => (mkSys (set_audio_queue p q) (threads s) (M_DrainCheck closing), [])
      | None =>
          (mkSys p (threads s) M_Idle,
           [ORet (if closing then CClose else CStop) RValueError])
      end
  end.

(** A call of a public method, up to its return or to the first point
    where it may have to wait. *)
Definition do_call (c : call) (s : sys) : sys * list obs :=
  match c with
  | CSetAudioFormat sw ch sr =>
      (mkSys (set_audio_format (self s) sw ch sr) (threads s) (caller s), [ORet c RNone])
  | CStart => start s
  | CAddChunk x =>
      let r := add_chunk (self s) x in
      (mkSys r.2 (threads s) (caller s),
       (if r.1 then [OPut x] else []) ++ [ORet c (RBool r.1)])
  | CStop => stop s
  | CClose => close s
  end.

(** The scheduler's choices. *)
Inductive event :=
  | Call (c : call)               (* the caller, idle, calls a method *)
  | Main (timeout : bool)         (* the caller goes on inside [stop] *)
  | Work (tid : nat) (ok : bool). (* worker [tid] takes a step *)

(** A choice that is not possible leaves the system as it is. *)
Definition step (s : sys) (e : event) : sys * list obs :=
  match e with
  | Call c =>
      match caller s with
      | M_Idle => do_call c s
      | _ => (s, [])
      end
  | Main timeout => stop_resume timeout s
  | Work tid ok =>
      match threads s !! tid with
      | None => (s, [])
      | Some w =>
          let r := _play_worker ok (self s) w in
          (mkSys r.1.1 (<[tid := r.1.2]> (threads s)) (caller s), r.2)
      end
  end.

(** A configuration is a system with what was observed so far. *)
Definition step_cfg (c : sys * list obs) (e : event) : sys * list obs :=
  let r := step c.1 e in (r.1, c.2 ++ r.2).

Definition run_from (c : sys * list obs) (es : list event) : sys * list obs :=
  foldl step_cfg c es.

Definition run (s : sys) (es : list event) : sys * list obs := run_from (s, []) es.

(** Projections of a trace. *)
Definition writes (tr : list obs) : list chunk :=
  omap (λ o, match o with OWrite c => Some c | _ => None end) tr.

Definition puts (tr : list obs) : list item :=
  omap (λ o, match o with OPut x => Some x | _ => None end) tr.

Definition gets (tr : list obs) : list item :=
  omap (λ o, match o with OGet x => Some x | _ => None end) tr.

Definition discards (tr : list obs) : list item :=
  omap (λ o, match o with ODiscard x => Some x | _ => None end) tr.

(** The number of errors the worker printed. *)
Fixpoint failures (tr : list obs) : nat :=
  match tr with
  | [] => 0
  | OPrint :: tr => S (failures tr)
  | _ :: tr => failures tr
  end.

Definition returns (tr : list obs) : list (call * result) :=
  omap (λ o, match o with ORet c r => Some (c, r) | _ => None end) tr.

(** The chunks among some items, in order. *)
Definition chunks_of (l : list item) : list chunk := omap id l.

(** * The vocabulary of the statements *)

(** ** What a step leaves alone *)

(** The configured format and the chunk size. *)
Definition configuration (p : player)
  : option Z * option Z * option Z * option pa_format * Z :=
  (sample_width p, channels p, sample_rate p, format p, chunk_size p).

(** The one call that changes it. *)
Definition is_set_audio_format (e : event) : Prop :=
  match e with
  | Call (CSetAudioFormat _ _ _) => True
  | _ => False
  end.

(** ** Invariants of every run from a new player *)

(** [set_audio_format] was never called. *)
Definition format_unset (p : player) : Prop :=
  sample_width p = None ∧ channels p = None ∧ sample_rate p = None.

(** Items taken from the queue whose [task_done] is still to come. *)
Definition holding (w : wpc) : nat :=
  match w with
  | W_Write _ | W_TaskDone => 1
  | _ => 0
  end.

Definition caller_holding (m : mpc) : nat :=
  match m with
  | M_DrainDone _ => 1
  | _ => 0
  end.

Definition held (s : sys) : nat :=
  sum_list (holding <$> threads s) + caller_holding (caller s).

(** Without a format nothing was started; inside [stop] the player does
    not play; [task_done] is never called once too often. *)
Record sys_inv (s : sys) : Prop := mkSysInv {
  inv_unset :
    sample_width (self s) = None ∨ channels (self s) = None
    ∨ sample_rate (self s) = None →
    format_unset (self s) ∧ is_playing (self s) = false ∧ caller s = M_Idle
    ∧ threads s = [];
  inv_busy : caller s ≠ M_Idle → is_playing (self s) = false;
  inv_tasks :
    qsize (audio_queue (self s)) + held s ≤ unfinished_tasks (audio_queue (self s))
}.

(** The states of the runs that begin with [__init__]. *)
Definition reachable (s : sys) : Prop :=
  ∃ cs es, s = (run (mkSys (init cs) [] M_Idle) es).1.

(** ** stop *)

(** What happens while the caller is inside [stop]: the caller goes on,
    workers take steps, no method is called. *)
Definition thread_step (e : event) : Prop :=
  match e with
  | Call _ => False
  | Main _ | Work _ _ => True
  end.

(** A bound on the turns the caller still needs inside [stop] when [n]
    items are queued. *)
Definition stop_turns (m : mpc) (n : nat) : nat :=
  match m with
  | M_Idle => 0
  | M_StopPut _ => 3 * n + 7
  | M_StopJoin _ => 3 * n + 3
  | M_DrainCheck _ => 3 * n + 2
  | M_DrainGet _ => 3 * n + 1
  | M_DrainDone _ => 3 * n + 3
  end.

(** The caller is not held up: the sentinel fits in the queue. *)
Definition can_put (s : sys) : Prop :=
  match caller s with
  | M_StopPut _ => qsize (audio_queue (self s)) < maxsize
  | _ => True
  end.

Definition turns_left (s : sys) : nat :=
  stop_turns (caller s) (qsize (audio_queue (self s))).

(** A turn of the caller is a step of it in which a [join] in progress
    gives up waiting. *)
Definition is_turn (e : event) : bool :=
  match e with
  | Main true => true
  | _ => false
  end.

(** ** close *)

(** The program point of [stop] when it was called directly. *)
Definition as_stop (m : mpc) : mpc :=
  match m with
  | M_Idle => M_Idle
  | M_StopPut _ => M_StopPut false
  | M_StopJoin _ => M_StopJoin false
  | M_DrainCheck _ => M_DrainCheck false
  | M_DrainGet _ => M_DrainGet false
  | M_DrainDone _ => M_DrainDone false
  end.

(** A system inside or after [close], as it would be inside or after the
    [stop] alone: [p.terminate()] is undone ([b] is what [p_terminated]
    was). *)
Definition without_close (b : bool) (s : sys) : sys :=
  mkSys (set_p_terminated (self s) b) (threads s) (as_stop (caller s)).

Definition as_stop_obs (o : obs) : obs :=
  match o with
  | ORet CClose r => ORet CStop r
  | _ => o
  end.

(** The caller is idle, or inside the [stop] of a [close]. *)
Definition closing (s : sys) : Prop :=
  match caller s with
  | M_Idle => True
  | M_StopPut c | M_StopJoin c | M_DrainCheck c | M_DrainGet c | M_DrainDone c =>
      c = true
  end.

(** While the caller is inside a [close], or back from one that did not
    raise, [p.terminate()] is the last thing that was done. *)
Definition closed_when_idle (s : sys) : Prop :=
  match caller s with
  | M_Idle => p_terminated (self s) = true
  | M_StopPut c | M_StopJoin c | M_DrainCheck c | M_DrainGet c | M_DrainDone c =>
      c = true
  end.

(** ** One playback session *)

(** The queue as a trace tells it: replayed from the queue [q], every
    [get] of the trace returns the oldest item present. *)
Fixpoint fifo (q : list item) (tr : list obs) : Prop :=
  match tr with
  | [] => True
  | OPut x :: tr => fifo (q ++ [x]) tr
  | OGet x :: tr =>
      match q with
      | [] => False
      | y :: q' => x = y ∧ fifo q' tr
      end
  | _ :: tr => fifo q tr
  end.

Fixpoint queue_after (q : list item) (tr : list obs) : list item :=
  match tr with
  | [] => q
  | OPut x :: tr => queue_after (q ++ [x]) tr
  | OGet _ :: tr => queue_after (tail q) tr
  | _ :: tr => queue_after q tr
  end.

(** A player that can be started: nothing is queued, no thread runs. *)
Definition ready (s : sys) : Prop :=
  caller s = M_Idle
  ∧ is_playing (self s) = false
  ∧ format_is_set (self s) = true
  ∧ items (audio_queue (self s)) = []
  ∧ threads s = replicate (length (threads s)) W_End.

(** What the caller and worker [tid] do while the session plays and the
    device works: chunks are added, the worker takes steps. *)
Definition playing_step (tid : nat) (e : event) : Prop :=
  match e with
  | Call (CAddChunk (Some _)) => True
  | Work j ok => j = tid ∧ ok = true
  | _ => False
  end.

(** The chunks the caller passes to [add_chunk] in a schedule. *)
Definition offered (es : list event) : list chunk :=
  omap (λ e, match e with Call (CAddChunk x) => x | _ => None end) es.

(** The chunk a worker has taken from the queue and not yet written. *)
Definition in_hand (w : wpc) : list chunk :=
  match w with
  | W_Write c => [c]
  | _ => []
  end.

(** A worker inside its loop has its stream. *)
Definition in_loop (w : wpc) (p : player) : Prop :=
  match w with
  | W_Open => True
  | W_Loop | W_Get | W_Write _ | W_TaskDone => is_Some (stream p)
  | W_Close | W_Clear | W_End => False
  end.

(** Every [add_chunk] of the trace returned [True]. *)
Definition accepted_all (tr : list obs) : Prop :=
  Forall (λ o, match o with
               | ORet (CAddChunk _) r => r = RBool true
               | _ => True
               end) tr.

(** The session plays: worker [tid] is in its loop, and the chunks
    accepted so far ([acc]) are those written, then the one in the
    worker's hand, then those in the queue. *)
Inductive playing (tid : nat) (acc : list chunk) (c : sys * list obs) : Prop :=
  mkPlaying (w : wpc) (pending : list chunk)
    (pl_caller : caller c.1 = M_Idle)
    (pl_flag : is_playing (self c.1) = true)
    (pl_threads : threads c.1 = replicate tid W_End ++ [w])
    (pl_in_loop : in_loop w (self c.1))
    (pl_items : items (audio_queue (self c.1)) = Some <$> pending)
    (pl_order : writes c.2 ++ in_hand w ++ pending = acc)
    (pl_tasks :
      length pending + holding w ≤ unfinished_tasks (audio_queue (self c.1)))
    (pl_puts : puts c.2 = Some <$> acc)
    (pl_accepted : accepted_all c.2)
    (pl_quiet : failures c.2 = 0 ∧ discards c.2 = []).

(** The steps the worker still needs to write all that is queued. *)
Definition work_left (w : wpc) (n : nat) : nat :=
  match w with
  | W_Open => 4 * n + 1
  | W_Loop => 4 * n
  | W_Get => 4 * n - 1
  | W_Write _ => 4 * n + 2
  | W_TaskDone => 4 * n + 1
  | W_Close | W_Clear | W_End => 0
  end.

Definition session_work (tid : nat) (s : sys) : nat :=
  match threads s !! tid with
  | Some w => work_left w (qsize (audio_queue (self s)))
  | None => 0
  end.

(** ** A device write failure *)

(** What may follow a failed write: anything but a new [start], with a
    device that lets worker [tid] stop and close its stream. *)
Definition after_failure_step (tid : nat) (e : event) : Prop :=
  match e with
  | Call CStart => False
  | Work j ok => j = tid → ok = true
  | _ => True
  end.

(** The steps of worker [tid]. *)
Definition is_work (tid : nat) (e : event) : bool :=
  match e with
  | Work j _ => bool_decide (j = tid)
  | _ => false
  end.

(** Worker [tid] has left its loop. *)
Definition leaving (w : wpc) (p : player) : Prop :=
  match w with
  | W_Close => is_Some (stream p)
  | W_Clear => stream p = None
  | W_End => stream p = None ∧ is_playing p = false
  | _ => False
  end.

Definition steps_to_end (w : wpc) : nat :=
  match w with
  | W_Close => 2
  | W_Clear => 1
  | _ => 0
  end.

(** Worker [tid] is at most [n] steps from its end. *)
Inductive torn_down (tid : nat) (n : nat) (s : sys) : Prop :=
  mkTornDown (w : wpc)
    (td_threads : threads s = replicate tid W_End ++ [w])
    (td_leaving : leaving w (self s))
    (td_steps : steps_to_end w ≤ n).

(** ** stop during a session *)

(** [stop] was called in a session: the chunks accepted before ([acc])
    are some that left the queue ([gone]) and those still in it; those
    written, and the one in the worker's hand, are among the former, in
    order. *)
Inductive stopping (tid : nat) (acc : list chunk) (c : sys * list obs) : Prop :=
  mkStopping (w : wpc) (gone : list chunk)
    (sp_flag : is_playing (self c.1) = false)
    (sp_threads : threads c.1 = replicate tid W_End ++ [w])
    (sp_queue : acc = gone ++ chunks_of (items (audio_queue (self c.1))))
    (sp_order : sublist (writes c.2 ++ in_hand w) gone)
    (sp_tasks :
      qsize (audio_queue (self c.1)) + holding w + caller_holding (caller c.1)
      ≤ unfinished_tasks (audio_queue (self c.1)))
    (sp_idle : caller c.1 = M_Idle → items (audio_queue (self c.1)) = [])
    (sp_puts : chunks_of (puts c.2) = acc)
    (sp_count :
      length (writes c.2) + length (in_hand w) + failures c.2
      + length (chunks_of (discards c.2))
      = length gone).

(** What the specification says of [stop], on one run: once [stop] has
    returned, as many chunks were written as were accepted before it was
    called. *)
Definition stop_writes_all (s : sys) (es1 es2 : list event) : Prop :=
  let c1 := run s (Call CStart :: es1) in
  let c2 := run_from c1 (Call CStop :: es2) in
  caller c2.1 = M_Idle →
  length (writes c2.2) = length (chunks_of (puts c1.2)).

(** A run in which it fails: the worker is writing [a] when [b] is added
    and [stop] is called; the worker finds [is_playing] false at its next
    check and leaves, and [stop], whose [join] sees the thread end, drains
    [b] and the sentinel. *)
Definition demo_player : sys :=
  (run new_player [Call (CSetAudioFormat 2 1 44100)]).1.

Definition demo_a : chunk := ["a"]%byte.
Definition demo_b : chunk := ["b"]%byte.

Definition demo_before_stop : list event :=
  [Work 0 true; Work 0 true; Call (CAddChunk (Some demo_a)); Work 0 true;
   Call (CAddChunk (Some demo_b)); Work 0 true].

Definition demo_after_stop : list event :=
  [Work 0 true; Work 0 true; Main false; Work 0 true; Work 0 true]
  ++ replicate 8 (Main false).

(** [stop] waits in [put(None)]: the queue is full and worker [tid], told
    to stop, is not inside [get]. *)
Inductive blocked (tid : nat) (s : sys) : Prop :=
  mkBlocked (w : wpc) (cl : bool)
    (bl_caller : caller s = M_StopPut cl)
    (bl_flag : is_playing (self s) = false)
    (bl_full : qsize (audio_queue (self s)) = maxsize)
    (bl_threads : threads s = replicate tid W_End ++ [w])
    (bl_worker : w ≠ W_Get).

(** ** More of the player *)

(** The calls of a schedule, in order. *)
Definition calls_of (es : list event) : list call :=
  omap (λ e, match e with Call c => Some c | _ => None end) es.

(** The only exception a method lets out is the [ValueError] of [start]. *)
Definition only_start_raises (o : obs) : Prop :=
  match o with
  | ORet c RValueError => c = CStart
  | _ => True
  end.

(** [add_chunk] called for each of some items in turn. *)
Definition add_calls (xs : list item) : list event :=
  (λ x, Call (CAddChunk x)) <$> xs.

(** What these calls return when the queue has room for [room] items. *)
Definition backpressure (room : nat) (xs : list item) : list (call * result) :=
  zip_with (λ x b, (CAddChunk x, RBool b)) xs
    (replicate room true ++ replicate (length xs - room) false).

(** Within a session, whatever is called: the chunks that entered the
    queue are some that left it ([gone]) and those still in it; those
    written, and the one in the hand of worker [tid], are among the
    former, in order. *)
Inductive flowing (tid : nat) (c : sys * list obs) : Prop :=
  mkFlowing (w : wpc) (gone : list chunk)
    (fl_threads : threads c.1 = replicate tid W_End ++ [w])
    (fl_queue :
      chunks_of (puts c.2) = gone ++ chunks_of (items (audio_queue (self c.1))))
    (fl_order : sublist (writes c.2 ++ in_hand w) gone).

(** ** The examples (lines 128-183)

    A WAV file open for reading, as the [wave] module gives it: the
    header and the bytes of the frames not yet read. *)
Record Wave_read := mkWave {
  wf_header : wav_header;
  wf_data : list byte
}.

(** The size of a frame in bytes. *)
Definition framesize (wf : Wave_read) : Z :=
  (getsampwidth (wf_header wf) * getnchannels (wf_header wf))%Z.

(** [wf.readframes(nframes)]: no frame for [nframes = 0], else the next
    [nframes * framesize] bytes, or what is left of them; a negative size
    reads all that is left. *)
Definition readframes (wf : Wave_read) (nframes : Z) : chunk * Wave_read :=
  if decide (nframes = 0%Z) then ([], wf)
  else
    let size := (nframes * framesize wf)%Z in
    if decide (size < 0)%Z then (wf_data wf, mkWave (wf_header wf) [])
    else (take (Z.to_nat size) (wf_data wf),
          mkWave (wf_header wf) (drop (Z.to_nat size) (wf_data wf))).

(** The loop of [example_play_from_file] (lines 139-144): the chunks it
    passes to [add_chunk], in at most [fuel] rounds. *)
Fixpoint read_loop (fuel : nat) (wf : Wave_read) (nframes : Z) : list chunk :=
  match fuel with
  | O => []
  | S fuel =>
      let r := readframes wf nframes in
      match r.1 with
      | [] => []
      | _ :: _ => r.1 :: read_loop fuel r.2 nframes
      end
  end.

(** Every round but the last takes at least one byte, so one round more
    than there are bytes is enough. *)
Definition file_chunks (wf : Wave_read) (nframes : Z) : list chunk :=
  read_loop (S (length (wf_data wf))) wf nframes.

(** The calls of [example_play_from_file] (lines 129-149), in order; the
    player is made with the default chunk size, and what [add_chunk]
    returns is not looked at. *)
Definition example_play_from_file (wf : Wave_read) : list call :=
  [CSetAudioFormat (getsampwidth (wf_header wf)) (getnchannels (wf_header wf))
     (getframerate (wf_header wf));
   CStart]
  ++ ((λ c, CAddChunk (Some c)) <$> file_chunks wf default_chunk_size)
  ++ [CStop; CClose].

(** The stream a worker of this player would open (lines 51-57). *)
Definition stream_of (p : player) : Stream :=
  mkStream (format p) (channels p) (sample_rate p) (chunk_size p).

(** Every stream opened is [st]. *)
Definition opens_with (st : Stream) (o : obs) : Prop :=
  match o with
  | OOpen st' => st' = st
  | _ => True
  end.

(** A trace in which the chunks [l] were put and nothing else happened. *)
Definition put_trace (l : list chunk) : list obs := (λ c, OPut (Some c)) <$> l.

(** Neither [stop] nor [close] is called. *)
Definition not_stopped (e : event) : Prop :=
  e ≠ Call CStop ∧ e ≠ Call CClose.

(** The player believes it plays, but its threads have ended. *)
Definition mute (n : nat) (s : sys) : Prop :=
  caller s = M_Idle ∧ is_playing (self s) = true
  ∧ threads s = replicate n W_End.

(** No [join] gives up waiting. *)
Definition no_timeout (e : event) : Prop := e ≠ Main true.

(** The caller is inside [stop], before the end of [join]. *)
Definition waiting (m : mpc) : Prop :=
  match m with
  | M_StopPut _ | M_StopJoin _ => True
  | _ => False
  end.

(** All threads but the last have ended, the last is [play_thread], and
    when it is told to stop the caller waits for it. *)
Inductive one_worker (s : sys) : Prop :=
  | no_worker
      (ow_threads : threads s = [])
      (ow_thread : play_thread (self s) = None)
  | last_worker (n : nat) (w : wpc)
      (ow_threads : threads s = replicate n W_End ++ [w])
      (ow_thread : play_thread (self s) = Some n)
      (ow_wait :
        w ≠ W_End → is_playing (self s) = false → waiting (caller s)).

(** A run in which a [join] gives up and [start] is called again. *)
Definition two_workers_run : list event :=
  [Call (CSetAudioFormat 2 1 44100); Call CStart; Call CStop; Main false;
   Main true; Main false; Main false; Main false; Main false; Call CStart].

(** ** [add_chunk(None)] (lines 64-65 and 94-102)

    What may follow in the session: more is passed to [add_chunk],
    worker [tid] takes steps, the device works. *)
Definition ending_step (tid : nat) (e : event) : Prop :=
  match e with
  | Call (CAddChunk _) => True
  | Work j ok => j = tid ∧ ok = true
  | _ => False
  end.

(** The steps a worker needs to its end when the sentinel is behind [n]
    chunks. *)
Definition end_left (w : wpc) (n : nat) : nat :=
  match w with
  | W_Open => 4 * n + 5
  | W_Loop => 4 * n + 4
  | W_Get => 4 * n + 3
  | W_Write _ => 4 * n + 6
  | W_TaskDone => 4 * n + 5
  | W_Close => 2
  | W_Clear => 1
  | W_End => 0
  end.

(** The worker believes it plays until the last statement of
    [_play_worker]. *)
Definition ending_state (w : wpc) (p : player) : Prop :=
  match w with
  | W_Open | W_Clear => is_playing p = true
  | W_Loop | W_Get | W_Write _ | W_TaskDone | W_Close =>
      is_playing p = true ∧ is_Some (stream p)
  | W_End => is_playing p = false
  end.

(** Until the worker takes the sentinel, it is in the queue behind the
    chunks [pending]. *)
Definition sentinel_behind (w : wpc) (q : list item) (pending : list chunk)
  : Prop :=
  match w with
  | W_Close | W_Clear | W_End => pending = []
  | _ => ∃ rest, q = (Some <$> pending) ++ None :: rest
  end.

(** [None] was passed to [add_chunk] in a session and accepted: of the
    chunks accepted before ([acc]), some are written, one may be in the
    hand of worker [tid], the others are in the queue before the
    sentinel; the worker is at most [n] steps from its end. *)
Inductive ending (tid : nat) (acc : list chunk) (n : nat) (c : sys * list obs)
  : Prop :=
  mkEnding (w : wpc) (pending : list chunk)
    (en_caller : caller c.1 = M_Idle)
    (en_threads : threads c.1 = replicate tid W_End ++ [w])
    (en_state : ending_state w (self c.1))
    (en_queue : sentinel_behind w (items (audio_queue (self c.1))) pending)
    (en_order : writes c.2 ++ in_hand w ++ pending = acc)
    (en_tasks :
      length pending + holding w ≤ unfinished_tasks (audio_queue (self c.1)))
    (en_left : end_left w (length pending) ≤ n).

(** * Properties *)

(** ** Format configuration *)

Lemma format_mapping_bits (sw : Z) :
  pa_sample_bits (format_mapping sw)
  = if bool_decide (1 ≤ sw ≤ 4)%Z then (8 * sw)%Z else 16%Z.
Proof.
  unfold format_mapping.
  case_bool_decide; repeat case_decide; subst; simpl; lia.
Qed.

(** C8: [set_audio_format] stores its three arguments, and the encoding it
    derives is the signed PCM format of 8 times the sample width bits for
    the widths 1 to 4 and the 16-bit one ([paInt16]) for every other
    width; nothing else of the player changes. *)
Theorem set_audio_format_spec (p : player) (sw ch sr : Z) :
  let p' := set_audio_format p sw ch sr in
  sample_width p' = Some sw ∧ channels p' = Some ch ∧ sample_rate p' = Some sr
  ∧ format p' = Some (format_mapping sw)
  ∧ pa_sample_bits (format_mapping sw)
    = (if bool_decide (1 ≤ sw ≤ 4)%Z then (8 * sw)%Z else 16%Z)
  ∧ (if bool_decide (1 ≤ sw ≤ 4)%Z then True else format_mapping sw = paInt16)
  ∧ (extract_wav_info p (mkHeader sw ch sr)).1 = p'
  ∧ (chunk_size p', p_terminated p', stream p', audio_queue p', is_playing p',
     play_thread p')
    = (chunk_size p, p_terminated p, stream p, audio_queue p, is_playing p,
       play_thread p).
Proof.
  simpl. repeat split; try apply format_mapping_bits.
  case_bool_decide; [done|].
  unfold format_mapping. repeat case_decide; try reflexivity; lia.
Qed.

(** ** The queue *)

Lemma put_nowait_Some (q : Queue) (x : item) :
  qsize q < maxsize →
  put_nowait q x = Some (mkQueue (items q ++ [x]) (S (unfinished_tasks q))).
Proof.
  intros H. unfold put_nowait, Queue_full. rewrite bool_decide_eq_false_2; [done|lia].
Qed.

Lemma put_nowait_None (q : Queue) (x : item) :
  maxsize ≤ qsize q → put_nowait q x = None.
Proof.
  intros H. unfold put_nowait, Queue_full. by rewrite bool_decide_eq_true_2.
Qed.


(** ** Runs *)

Lemma run_from_nil (c : sys * list obs) : run_from c [] = c.
Proof. reflexivity. Qed.

Lemma run_from_cons (c : sys * list obs) (e : event) (es : list event) :
  run_from c (e :: es) = run_from (step_cfg c e) es.
Proof. reflexivity. Qed.

Lemma run_from_app (c : sys * list obs) (es1 es2 : list event) :
  run_from c (es1 ++ es2) = run_from (run_from c es1) es2.
Proof. apply foldl_app. Qed.

Lemma run_app (s : sys) (es1 es2 : list event) :
  run s (es1 ++ es2) = run_from (run s es1) es2.
Proof. apply run_from_app. Qed.

Lemma run_snoc (s : sys) (es : list event) (e : event) :
  run s (es ++ [e]) = step_cfg (run s es) e.
Proof. unfold run. by rewrite run_from_app. Qed.

(** An invariant of configurations that every step keeps holds along
    every run. *)
Lemma run_from_invariant (I : sys * list obs → Prop) (A : event → Prop) :
  (∀ c e, A e → I c → I (step_cfg c e)) →
  ∀ es c, Forall A es → I c → I (run_from c es).
Proof.
  intros Hstep es. induction es as [|e es IH]; intros c HA Hc; [done|].
  inversion_clear HA. rewrite run_from_cons. apply IH; auto.
Qed.

(** The same for invariants of the system alone. *)
Lemma run_from_sys_invariant (I : sys → Prop) (A : event → Prop) :
  (∀ s e, A e → I s → I (step s e).1) →
  ∀ es c, Forall A es → I c.1 → I (run_from c es).1.
Proof.
  intros Hstep.
  apply (run_from_invariant (λ c, I c.1) A).
  intros c e HA Hc. simpl. auto.
Qed.

(** Case analysis on one step. *)
Ltac step_cases :=
  unfold step, do_call, start, stop, close, stop_from, stop_resume,
    stop_return, add_chunk, _play_worker, put_nowait, get_nowait, task_done,
    thread_ended in *;
  repeat (simpl in *; case_match; simplify_eq/=); simpl in *.

(** ** What a step leaves alone *)

Lemma step_configuration (s : sys) (e : event) :
  ¬ is_set_audio_format e →
  configuration (self (step s e).1) = configuration (self s).
Proof.
  intros He. destruct e as [[]| |]; simpl in He; try tauto;
    destruct s as [p ths m]; step_cases; reflexivity.
Qed.

Lemma run_from_configuration (es : list event) (c : sys * list obs) :
  Forall (λ e, ¬ is_set_audio_format e) es →
  configuration (self (run_from c es).1) = configuration (self c.1).
Proof.
  intros HA.
  apply (run_from_sys_invariant
           (λ s, configuration (self s) = configuration (self c.1))
           (λ e, ¬ is_set_audio_format e)); [|done|done].
  intros s e He Hs. by rewrite step_configuration.
Qed.

(** ** Invariants of every run from a new player *)

Lemma sum_list_fmap_insert {A} (f : A → nat) (l : list A) (i : nat) (x y : A) :
  l !! i = Some x →
  sum_list (f <$> <[i:=y]> l) + f x = sum_list (f <$> l) + f y.
Proof.
  revert i. induction l as [|a l IH]; intros [|i] Hi; simplify_eq/=; [lia|].
  specialize (IH _ Hi). lia.
Qed.

Lemma sys_inv_init (cs : Z) : sys_inv (mkSys (init cs) [] M_Idle).
Proof. split; simpl; try done. Qed.

Lemma sys_inv_step (s : sys) (e : event) : sys_inv s → sys_inv (step s e).1.
Proof.
  intros [Hu Hb Ht]. destruct s as [p ths m0].
  split; simpl in *.
  - unfold format_unset, format_is_set in *.
    destruct e as [c|t|tid ok]; step_cases; intros Hn;
      first [ by destruct Hn as [?|[?|?]]
            | destruct (Hu Hn) as ((Hw & Hc & Hr) & Hp & ? & ?);
              unfold format_is_set in *; try rewrite Hw in *;
              try rewrite Hp in *; by simplify_eq/= ].
  - destruct e as [c|t|tid ok]; step_cases; try tauto; try congruence;
      try (intros Hm; assert (m0 ≠ M_Idle) as Hm' by congruence; specialize (Hb Hm'); congruence);
      try (intros Hm; specialize (Hb Hm); congruence);
      try (intros _; apply Hb; discriminate).
  - unfold held, qsize in *. simpl in *.
    destruct e as [c|t|tid ok]; step_cases;
      repeat match goal with
             | H : items _ = _ |- _ => rewrite H in *; clear H
             end;
      rewrite ?length_app, ?fmap_app, ?sum_list_with_app; simpl in *; try lia;
      match goal with
      | H : ?l !! ?i = Some ?w |- context [<[?i := ?w']> ?l] =>
          pose proof (sum_list_fmap_insert holding l i w w' H); simpl in *; lia
      end.
Qed.

Lemma reachable_inv (s : sys) : reachable s → sys_inv s.
Proof.
  intros (cs & es & ->).
  apply (run_from_sys_invariant sys_inv (λ _, True));
    [auto using sys_inv_step | by apply Forall_true | apply sys_inv_init].
Qed.

Lemma reachable_step (s : sys) (e : event) : reachable s → reachable (step s e).1.
Proof.
  intros (cs & es & ->). exists cs, (es ++ [e]). by rewrite run_snoc.
Qed.

Lemma reachable_run_from (s : sys) (tr : list obs) (es : list event) :
  reachable s → reachable (run_from (s, tr) es).1.
Proof.
  intros Hs.
  apply (run_from_sys_invariant reachable (λ _, True));
    [auto using reachable_step | by apply Forall_true | done].
Qed.

(** ** start *)

(** C4: on a player whose format was never set, [start] raises the
    [ValueError], and the system is as before: no thread is started, no
    stream is opened, [is_playing] stays [False]; once a format with
    non-zero fields is set, [start] starts the worker. *)
Theorem start_without_format (s : sys) :
  reachable s →
  format_unset (self s) →
  step s (Call CStart) = (s, [ORet CStart RValueError])
  ∧ is_playing (self s) = false
  ∧ threads s = []
  ∧ ∀ sw ch sr : Z, sw ≠ 0%Z → ch ≠ 0%Z → sr ≠ 0%Z →
      let s1 := (step s (Call (CSetAudioFormat sw ch sr))).1 in
      let r := step s1 (Call CStart) in
      r.2 = [OSpawn 0; ORet CStart RNone]
      ∧ is_playing (self r.1) = true ∧ threads r.1 = [W_Open].
Proof.
  intros Hr Hu. destruct (inv_unset s (reachable_inv s Hr)) as (_ & Hp & Hm & Ht).
  { left. apply Hu. }
  destruct Hu as (Hw & Hc & Hs). destruct s as [p ths m]. simpl in *. subst.
  split; [|split; [done|split; [done|]]].
  - unfold start, format_is_set. simpl. by rewrite Hp, Hw.
  - intros sw ch sr Hsw Hch Hsr. simpl. unfold start, format_is_set. simpl.
    rewrite Hp.
    rewrite (proj2 (Z.eqb_neq sw 0)), (proj2 (Z.eqb_neq ch 0)),
      (proj2 (Z.eqb_neq sr 0)) by done.
    done.
Qed.

Lemma start_without_format_witness :
  step new_player (Call CStart) = (new_player, [ORet CStart RValueError]).
Proof.
  apply (start_without_format new_player).
  - exists default_chunk_size, []. reflexivity.
  - repeat split.
Defined.

(** C9: after [set_audio_format] with a zero among its arguments, which
    it stores as they are, [start] on a player that is not playing raises
    the same [ValueError] as on a new player and starts no thread. *)
Theorem start_zero_format (s : sys) (sw ch sr : Z) :
  caller s = M_Idle →
  is_playing (self s) = false →
  sw = 0%Z ∨ ch = 0%Z ∨ sr = 0%Z →
  let s1 := (step s (Call (CSetAudioFormat sw ch sr))).1 in
  (sample_width (self s1), channels (self s1), sample_rate (self s1))
  = (Some sw, Some ch, Some sr)
  ∧ step s1 (Call CStart) = (s1, [ORet CStart RValueError])
  ∧ (step s1 (Call CStart)).2 = (step new_player (Call CStart)).2
  ∧ threads s1 = threads s
  ∧ is_playing (self s1) = false.
Proof.
  intros Hm Hp Hz. destruct s as [p ths m]. simpl in *. subst m. simpl.
  unfold start, format_is_set. simpl. rewrite Hp.
  assert (negb (negb (sw =? 0)%Z && negb (ch =? 0)%Z && negb (sr =? 0)%Z) = true) as ->.
  { destruct Hz as [-> | [-> | ->]]; simpl; rewrite ?andb_false_r; done. }
  done.
Qed.

Lemma start_zero_format_witness :
  step (step new_player (Call (CSetAudioFormat 0 1 44100))).1 (Call CStart)
  = ((step new_player (Call (CSetAudioFormat 0 1 44100))).1,
     [ORet CStart RValueError]).
Proof.
  apply (start_zero_format new_player 0 1 44100); [reflexivity|reflexivity|].
  left. reflexivity.
Defined.

(** ** stop *)

Lemma thread_step_not_set_audio_format (es : list event) :
  Forall thread_step es → Forall (λ e, ¬ is_set_audio_format e) es.
Proof. intros H. eapply Forall_impl; [|exact H]. intros [[]| |]; simpl; tauto. Qed.

(** Only [start] sets [is_playing]. *)
Lemma step_not_playing (s : sys) (e : event) :
  e ≠ Call CStart →
  is_playing (self s) = false → is_playing (self (step s e).1) = false.
Proof.
  intros He Hp. destruct s as [p ths m].
  destruct e as [[]| |]; try done; step_cases; congruence.
Qed.

Lemma run_from_not_playing (es : list event) (c : sys * list obs) :
  Forall (λ e, e ≠ Call CStart) es →
  is_playing (self c.1) = false → is_playing (self (run_from c es).1) = false.
Proof.
  apply (run_from_sys_invariant (λ s, is_playing (self s) = false)).
  intros s e. apply step_not_playing.
Qed.

Lemma thread_step_not_start (es : list event) :
  Forall thread_step es → Forall (λ e, e ≠ Call CStart) es.
Proof. intros H. eapply Forall_impl; [|exact H]. intros [[]| |]; simpl; done. Qed.

Lemma stop_not_playing (s : sys) :
  caller s = M_Idle → is_playing (self (step s (Call CStop)).1) = false.
Proof.
  intros Hm. destruct s as [p ths m]. simpl in *. subst.
  unfold stop, stop_from, stop_return. simpl.
  destruct (is_playing p) eqn:Hp; simpl; done.
Qed.

(** C6: [start] on a playing player and [stop] on one that is not playing
    return at once and change nothing.  So a second [start] in a row finds
    the one worker of the first and adds none, and a [stop] that follows a
    [stop] that returned, whatever the threads did meanwhile, leaves the
    queue, the threads and all the rest as they are. *)
Theorem start_stop_idempotent (s : sys) (es : list event) :
  caller s = M_Idle →
  Forall thread_step es →
  (is_playing (self s) = true →
   step s (Call CStart) = (s, [ORet CStart RNone]))
  ∧ (is_playing (self s) = false →
     step s (Call CStop) = (s, [ORet CStop RNone]))
  ∧ (is_playing (self s) = false → format_is_set (self s) = true →
     let s1 := (step s (Call CStart)).1 in
     threads s1 = threads s ++ [W_Open]
     ∧ is_playing (self s1) = true
     ∧ step s1 (Call CStart) = (s1, [ORet CStart RNone]))
  ∧ (let s2 := (run s (Call CStop :: es)).1 in
     caller s2 = M_Idle →
     step s2 (Call CStop) = (s2, [ORet CStop RNone])).
Proof.
  intros Hm Hes. repeat split.
  - intros Hp. destruct s as [p ths m]. simpl in *. subst.
    unfold start. simpl. by rewrite Hp.
  - intros Hp. destruct s as [p ths m]. simpl in *. subst.
    unfold stop, stop_from, stop_return. simpl. by rewrite Hp.
  - destruct s as [p ths m]. simpl in *. subst. unfold start. simpl.
    by rewrite H, H0.
  - destruct s as [p ths m]. simpl in *. subst. unfold start. simpl.
    by rewrite H, H0.
  - destruct s as [p ths m]. simpl in *. subst. unfold start. simpl.
    by rewrite H, H0.
  - intros s2 Hm2.
    assert (is_playing (self s2) = false) as Hp2.
    { unfold s2, run. rewrite run_from_cons.
      apply run_from_not_playing; [by apply thread_step_not_start|].
      simpl. by apply stop_not_playing. }
    destruct s2 as [p ths m]. simpl in *. subst.
    unfold stop, stop_from, stop_return. simpl. by rewrite Hp2.
Qed.

Lemma start_stop_idempotent_witness :
  let s := (run new_player [Call (CSetAudioFormat 2 1 44100); Call CStart]).1 in
  step s (Call CStart) = (s, [ORet CStart RNone]).
Proof.
  intros s.
  destruct (start_stop_idempotent s [Main true; Work 0 true]) as (H & _);
    [reflexivity|repeat constructor|].
  apply H. reflexivity.
Defined.

(** C10: from the call of [stop] on, whatever the threads do, the three
    format fields, the derived encoding and the chunk size are those of
    before; and when [stop] has returned, a [start] starts a worker whose
    stream is opened with exactly these. *)
Theorem stop_keeps_configuration (s : sys) (es : list event) :
  caller s = M_Idle →
  Forall thread_step es →
  let s1 := (run s (Call CStop :: es)).1 in
  (sample_width (self s1), channels (self s1), sample_rate (self s1),
   format (self s1), chunk_size (self s1))
  = (sample_width (self s), channels (self s), sample_rate (self s),
     format (self s), chunk_size (self s))
  ∧ (caller s1 = M_Idle → format_is_set (self s) = true →
     let tid := length (threads s1) in
     let r := step s1 (Call CStart) in
     r.2 = [OSpawn tid; ORet CStart RNone]
     ∧ (step r.1 (Work tid true)).2
       = [OOpen (mkStream (format (self s)) (channels (self s))
                    (sample_rate (self s)) (chunk_size (self s)))]).
Proof.
  intros Hm Hes s1.
  assert (configuration (self s1) = configuration (self s)) as Hc.
  { unfold s1, run.
    rewrite run_from_configuration; [done|].
    constructor; [simpl; tauto|]. by apply thread_step_not_set_audio_format. }
  split; [exact Hc|].
  intros Hm1 Hf tid r.
  assert (is_playing (self s1) = false) as Hp1.
  { unfold s1, run. rewrite run_from_cons.
    apply run_from_not_playing; [by apply thread_step_not_start|].
    simpl. by apply stop_not_playing. }
  unfold configuration in Hc. injection Hc as Hsw Hch Hsr Hfm Hcs.
  assert (format_is_set (self s1) = true) as Hf1.
  { unfold format_is_set in *. by rewrite Hsw, Hch, Hsr. }
  subst r tid. clearbody s1. destruct s1 as [p ths m]. simpl in *. subst.
  unfold start. simpl. rewrite Hp1, Hf1. simpl. split; [done|].
  rewrite lookup_app_r by done. rewrite Nat.sub_diag. simpl.
  by rewrite Hch, Hsr, Hfm, Hcs.
Qed.

Lemma stop_keeps_configuration_witness :
  let s := (run new_player [Call (CSetAudioFormat 2 1 44100); Call CStart]).1 in
  let s1 := (run s (Call CStop :: replicate 6 (Main true))).1 in
  format (self s1) = Some paInt16 ∧ caller s1 = M_Idle.
Proof.
  intros s s1. split; [|reflexivity].
  pose proof (stop_keeps_configuration s (replicate 6 (Main true))) as H.
  destruct H as [H _]; [reflexivity|repeat constructor|].
  by inversion H.
Defined.

Lemma stop_progress_step (s : sys) (e : event) :
  thread_step e → can_put s →
  can_put (step s e).1
  ∧ turns_left (step s e).1 + (if is_turn e then 1 else 0) ≤ turns_left s
    ∨ caller (step s e).1 = M_Idle ∧ can_put (step s e).1.
Proof.
  intros He Hc. destruct s as [p ths m].
  unfold can_put, turns_left, qsize in *.
  destruct e as [c|t|tid ok]; [done| |]; step_cases;
    unfold Queue_full, Queue_empty, qsize in *;
    repeat match goal with
           | H : items _ = _ |- _ => rewrite H in *; clear H
           | H : bool_decide _ = false |- _ => apply bool_decide_eq_false in H
           | H : bool_decide _ = true |- _ => apply bool_decide_eq_true in H
           end;
    rewrite ?length_app in *; simpl in *;
    try (exfalso; lia);
    try (right; split; [reflexivity|exact I]);
    try (left; split; [done || lia|lia]).
Qed.

(** [stop] returns: no worker makes the queue longer, so the caller is
    back once it had its turns. *)
Lemma stop_returns (es : list event) (c : sys * list obs) :
  Forall thread_step es →
  can_put c.1 →
  turns_left c.1 ≤ length (filter is_turn es) →
  caller (run_from c es).1 = M_Idle.
Proof.
  revert c. induction es as [|e es IH]; intros c Hes Hc Hn.
  - simpl in *. unfold turns_left in Hn.
    destruct (caller c.1); simpl in *; [done|lia..].
  - inversion_clear Hes as [|?? He Hes'].
    rewrite run_from_cons. apply IH; [done|..].
    + simpl. destruct (stop_progress_step c.1 e He Hc) as [[? _]|[_ ?]]; done.
    + simpl.
      destruct (stop_progress_step c.1 e He Hc) as [[_ Hle]|[Hi _]].
      * destruct (is_turn e) eqn:E.
        -- rewrite filter_cons_True in Hn by (by rewrite E). simpl in Hn. lia.
        -- rewrite filter_cons_False in Hn by (rewrite E; simpl; tauto). lia.
      * unfold turns_left. rewrite Hi. simpl. lia.
Qed.

(** ** close *)

Lemma close_stop_step (b : bool) (s : sys) (e : event) :
  thread_step e → closing s →
  closing (step s e).1
  ∧ step (without_close b s) e
    = (without_close b (step s e).1, as_stop_obs <$> (step s e).2).
Proof.
  intros He Hc. destruct s as [p ths m]. unfold closing, without_close in *.
  destruct e as [c|t|tid ok]; [done| |]; step_cases; done.
Qed.

Lemma close_stop_run (b : bool) (es : list event) (c : sys * list obs) :
  Forall thread_step es → closing c.1 →
  closing (run_from c es).1
  ∧ run_from (without_close b c.1, as_stop_obs <$> c.2) es
    = (without_close b (run_from c es).1, as_stop_obs <$> (run_from c es).2).
Proof.
  revert c. induction es as [|e es IH]; intros c Hes Hc.
  - done.
  - inversion_clear Hes as [|?? He Hes'].
    destruct (close_stop_step b c.1 e He Hc) as [Hc' Heq].
    rewrite !run_from_cons.
    destruct (IH (step_cfg c e) Hes' Hc') as [Hc'' IH'].
    split; [done|]. rewrite <- IH'. f_equal.
    unfold step_cfg. simpl. rewrite Heq. simpl. by rewrite fmap_app.
Qed.

Lemma closed_when_idle_step (s : sys) (e : event) :
  thread_step e → sys_inv s → closed_when_idle s →
  closed_when_idle (step s e).1 ∧ Forall (λ o, ∀ c, o ≠ ORet c RValueError) (step s e).2.
Proof.
  intros He [_ _ Ht] Hc. destruct s as [p ths m].
  unfold closed_when_idle, held in *.
  destruct e as [c|t|tid ok]; [done| |]; step_cases;
    try (exfalso; lia); split; try done; repeat constructor; done.
Qed.

Lemma closed_when_idle_run (es : list event) (c : sys * list obs) :
  Forall thread_step es → sys_inv c.1 → closed_when_idle c.1 →
  Forall (λ o, ∀ c, o ≠ ORet c RValueError) c.2 →
  closed_when_idle (run_from c es).1
  ∧ Forall (λ o, ∀ c, o ≠ ORet c RValueError) (run_from c es).2.
Proof.
  revert c. induction es as [|e es IH]; intros c Hes Hi Hc Htr; [done|].
  inversion_clear Hes as [|?? He Hes'].
  destruct (closed_when_idle_step c.1 e He Hi Hc) as [Hc' Ho].
  rewrite run_from_cons. apply IH; simpl; try done.
  - by apply sys_inv_step.
  - by apply Forall_app.
Qed.

Lemma set_p_terminated_id (p : player) :
  p_terminated p = true → set_p_terminated p true = p.
Proof. destruct p. simpl. by intros ->. Qed.

Lemma close_again (s : sys) (tr : list obs) (n : nat) :
  caller s = M_Idle → is_playing (self s) = false → p_terminated (self s) = true →
  run_from (s, tr) (replicate n (Call CClose))
  = (s, tr ++ replicate n (ORet CClose RNone)).
Proof.
  intros Hm Hp Ht. revert tr. induction n as [|n IH]; intros tr; simpl.
  - by rewrite app_nil_r.
  - unfold step_cfg. simpl. rewrite Hm. unfold close, stop_from, stop_return.
    rewrite Hp. simpl. rewrite set_p_terminated_id by done.
    destruct s as [p ths m]. simpl in *. subst m. rewrite IH.
    by rewrite <- app_assoc.
Qed.

Lemma close_call (s : sys) :
  caller s = M_Idle →
  let r := step s (Call CClose) in
  closing r.1 ∧ closed_when_idle r.1
  ∧ step s (Call CStop)
    = (without_close (p_terminated (self s)) r.1, as_stop_obs <$> r.2)
  ∧ Forall (λ o, ∀ c, o ≠ ORet c RValueError) r.2
  ∧ is_playing (self r.1) = false
  ∧ (qsize (audio_queue (self s)) < maxsize → can_put r.1)
  ∧ turns_left r.1 ≤ 3 * qsize (audio_queue (self s)) + 7.
Proof.
  intros Hm. destruct s as [p ths m]. simpl in *. subst m.
  unfold close, stop, stop_from, stop_return, closing, closed_when_idle,
    without_close, can_put, turns_left.
  simpl. destruct (is_playing p) eqn:Hp; simpl.
  - repeat split; try done; lia.
  - repeat split; try done; try lia.
    + by destruct p.
    + repeat constructor. done.
Qed.



(** ** Traces and queues *)

Lemma fifo_app (q : list item) (tr1 tr2 : list obs) :
  fifo q (tr1 ++ tr2) ↔ fifo q tr1 ∧ fifo (queue_after q tr1) tr2.
Proof.
  revert q. induction tr1 as [|o tr1 IH]; intros q; simpl; [tauto|].
  destruct o; simpl; try apply IH.
  destruct q as [|y q]; simpl; [tauto|]. rewrite IH. tauto.
Qed.

Lemma queue_after_app (q : list item) (tr1 tr2 : list obs) :
  queue_after q (tr1 ++ tr2) = queue_after (queue_after q tr1) tr2.
Proof.
  revert q. induction tr1 as [|o tr1 IH]; intros q; simpl; [done|].
  destruct o; simpl; apply IH.
Qed.

Lemma fifo_puts_gets (q : list item) (tr : list obs) :
  fifo q tr → q ++ puts tr = gets tr ++ queue_after q tr.
Proof.
  revert q. induction tr as [|o tr IH]; intros q; simpl.
  - intros _. by rewrite app_nil_r.
  - destruct o; simpl; try apply IH.
    + intros H. specialize (IH _ H). unfold puts, gets in *. simpl.
      rewrite <- IH. by rewrite <- app_assoc.
    + destruct q as [|y q]; [done|]. intros [-> H]. specialize (IH _ H).
      unfold puts, gets in *. simpl. by rewrite IH.
Qed.

(** At the moment an item is taken from the queue, the items put before
    it have all been taken, in the order they were put. *)
Lemma fifo_get (tr1 tr2 : list obs) (x : item) :
  fifo [] (tr1 ++ OGet x :: tr2) →
  ∃ later, puts tr1 = gets tr1 ++ x :: later.
Proof.
  rewrite fifo_app. intros [H1 H2]. simpl in H2.
  pose proof (fifo_puts_gets _ _ H1) as Heq. simpl in Heq.
  destruct (queue_after [] tr1) as [|y q]; [done|]. destruct H2 as [-> _].
  by exists q.
Qed.

(** Every step keeps the trace and the queue in line. *)
Lemma step_fifo (s : sys) (e : event) :
  let r := step s e in
  fifo (items (audio_queue (self s))) r.2
  ∧ queue_after (items (audio_queue (self s))) r.2
    = items (audio_queue (self r.1)).
Proof.
  destruct s as [p ths m].
  destruct e as [c|t|tid ok]; step_cases;
    repeat match goal with
           | H : items _ = _ |- _ => rewrite H in *; clear H
           end; simpl; done.
Qed.

Lemma run_from_fifo (es : list event) (c : sys * list obs) (q0 : list item) :
  fifo q0 c.2 ∧ queue_after q0 c.2 = items (audio_queue (self c.1)) →
  fifo q0 (run_from c es).2
  ∧ queue_after q0 (run_from c es).2
    = items (audio_queue (self (run_from c es).1)).
Proof.
  apply (run_from_invariant
           (λ c, fifo q0 c.2
                 ∧ queue_after q0 c.2 = items (audio_queue (self c.1)))
           (λ _, True)); [|by apply Forall_true].
  clear. intros c e _ [Hf Hq]. simpl.
  destruct (step_fifo c.1 e) as [Hf' Hq'].
  rewrite fifo_app, queue_after_app, Hq. done.
Qed.

Lemma writes_app (tr1 tr2 : list obs) : writes (tr1 ++ tr2) = writes tr1 ++ writes tr2.
Proof. apply omap_app. Qed.

Lemma puts_app (tr1 tr2 : list obs) : puts (tr1 ++ tr2) = puts tr1 ++ puts tr2.
Proof. apply omap_app. Qed.

Lemma discards_app (tr1 tr2 : list obs) :
  discards (tr1 ++ tr2) = discards tr1 ++ discards tr2.
Proof. apply omap_app. Qed.

Lemma failures_app (tr1 tr2 : list obs) :
  failures (tr1 ++ tr2) = failures tr1 + failures tr2.
Proof.
  induction tr1 as [|o tr1 IH]; simpl; [done|]. destruct o; simpl; lia.
Qed.

Lemma chunks_of_app (l k : list item) : chunks_of (l ++ k) = chunks_of l ++ chunks_of k.
Proof. apply omap_app. Qed.

Lemma chunks_of_Some (l : list chunk) : chunks_of (Some <$> l) = l.
Proof.
  unfold chunks_of. induction l as [|c l IH]; simpl; [done|].
  f_equal. exact IH.
Qed.

Lemma offered_cons (e : event) (es : list event) :
  offered (e :: es) = offered [e] ++ offered es.
Proof. unfold offered. simpl. by destruct e as [[| |[?|]| |]| |]. Qed.

(** A run only adds to the trace. *)
Lemma run_from_trace (es : list event) (c : sys * list obs) :
  ∃ tr, (run_from c es).2 = c.2 ++ tr.
Proof.
  revert c. induction es as [|e es IH]; intros c.
  - exists []. simpl. by rewrite app_nil_r.
  - rewrite run_from_cons. destruct (IH (step_cfg c e)) as [tr ->].
    simpl. eexists. by rewrite <- app_assoc.
Qed.

Lemma sublist_snoc_l {A} (l k : list A) (x : A) :
  sublist (l ++ [x]) k → sublist l k.
Proof. intros H. etrans; [|exact H]. by apply sublist_inserts_r. Qed.

Lemma sublist_app_same {A} (l e : list A) : sublist (l ++ e) l → e = [].
Proof.
  intros H. apply sublist_length in H. rewrite length_app in H.
  apply length_zero_iff_nil. lia.
Qed.

Lemma start_playing (s : sys) :
  ready s → playing (length (threads s)) [] (step_cfg (s, []) (Call CStart)).
Proof.
  intros (Hm & Hp & Hf & Hq & Ht). destruct s as [p ths m]. simpl in *. subst m.
  unfold step_cfg. simpl. unfold start. simpl. rewrite Hp, Hf. simpl.
  apply (mkPlaying _ _ _ W_Open []); simpl; try done.
  - by rewrite <- Ht.
  - lia.
  - repeat constructor.
Qed.

Ltac close_session :=
  simpl in *; rewrite ?app_nil_r in *;
  rewrite ?writes_app, ?puts_app, ?length_app, ?fmap_app; simpl;
  rewrite ?app_nil_r;
  first [ done | lia | by rewrite <- ?app_assoc
        | by (apply Forall_app; split; [|repeat constructor])
        | by (rewrite ?failures_app, ?discards_app;
              match goal with
              | H : failures _ = 0 ∧ discards _ = [] |- _ => destruct H as [-> ->]
              end) ].

Ltac close_stopping :=
  unfold qsize in *; simpl in *;
  try match goal with H : items _ = _ |- _ => rewrite !H end;
  rewrite ?app_nil_r in *;
  rewrite ?writes_app, ?puts_app, ?failures_app, ?discards_app,
    ?chunks_of_app, ?length_app; simpl;
  rewrite ?app_nil_r;
  first [ done | lia | congruence | by apply sublist_inserts_r
        | by eapply sublist_snoc_l
        | by (let Hm := fresh in
              intros Hm;
              match goal with H : _ = M_Idle → _ |- _ => specialize (H Hm) end) ].

(** ** One playback session

    Worker [tid] is the one thread of the session; the threads before it
    have ended. *)

Section Session.

Context (tid : nat).

Lemma lookup_last_thread (w : wpc) :
  (replicate tid W_End ++ [w]) !! tid = Some w.
Proof.
  rewrite lookup_app_r by (rewrite length_replicate; lia).
  by rewrite length_replicate, Nat.sub_diag.
Qed.

Lemma insert_last_thread (w w' : wpc) :
  <[tid:=w']> (replicate tid W_End ++ [w]) = replicate tid W_End ++ [w'].
Proof.
  rewrite insert_app_r_alt by (rewrite length_replicate; lia).
  by rewrite length_replicate, Nat.sub_diag.
Qed.

Lemma lookup_other_thread (j : nat) (w w' : wpc) :
  (replicate tid W_End ++ [w]) !! j = Some w' → j ≠ tid → w' = W_End.
Proof.
  intros H Hj. apply lookup_app_Some in H as [H|[Hl H]].
  - by apply lookup_replicate in H as [-> _].
  - rewrite length_replicate in *.
    apply list_lookup_singleton_Some in H as [? _]. lia.
Qed.

Lemma step_other_thread (j : nat) (ok : bool) (p : player) (w : wpc) (m : mpc) :
  j ≠ tid →
  step (mkSys p (replicate tid W_End ++ [w]) m) (Work j ok)
  = (mkSys p (replicate tid W_End ++ [w]) m, []).
Proof.
  intros Hj. unfold step. simpl.
  destruct ((replicate tid W_End ++ [w]) !! j) as [w'|] eqn:Hl; [|done].
  apply lookup_other_thread in Hl as Hw; [|done]. subst w'. simpl.
  by rewrite list_insert_id.
Qed.

Lemma playing_step_keeps (acc : list chunk) (c : sys * list obs) (e : event) :
  playing tid acc c → playing_step tid e →
  length acc + length (offered [e]) ≤ maxsize →
  playing tid (acc ++ offered [e]) (step_cfg c e).
Proof.
  intros [w pending Hm Hp Ht Hl Hq Ho Hu Hpu Ha Hqt] He Hn.
  destruct c as [[p ths m] tr]. simpl in *. subst m ths.
  destruct e as [[| |[x|]| |]|t|j ok]; simpl in He; try done.
  - (* add_chunk *)
    unfold step_cfg, offered in *. simpl in *. unfold add_chunk. rewrite Hp.
    rewrite put_nowait_Some.
    2:{ unfold qsize. rewrite Hq, length_fmap. rewrite <- Ho in Hn.
        rewrite !length_app in Hn. lia. }
    simpl.
    apply (mkPlaying _ _ _ w (pending ++ [x])); try close_session.
    + simpl. by rewrite Hq, fmap_app.
    + simpl. rewrite !writes_app. simpl. rewrite app_nil_r, <- Ho.
      by rewrite <- !app_assoc.
    + simpl. rewrite !puts_app. simpl. by rewrite Hpu, fmap_app.
  - (* the worker *)
    destruct He as [-> ->]. unfold step_cfg, offered. simpl.
    rewrite lookup_last_thread, insert_last_thread, app_nil_r.
    destruct w; simpl in *; try done.
    + apply (mkPlaying _ _ _ W_Loop pending); close_session.
    + rewrite Hp. simpl.
      apply (mkPlaying _ _ _ W_Get pending); close_session.
    + unfold get_nowait. rewrite Hq. destruct pending as [|c pending]; simpl.
      * apply (mkPlaying _ _ _ W_Loop []); close_session.
      * apply (mkPlaying _ _ _ (W_Write c) pending); close_session.
    + destruct Hl as [st Hst]. rewrite Hst. simpl.
      apply (mkPlaying _ _ _ W_TaskDone pending); close_session.
    + unfold task_done.
      destruct (unfinished_tasks (audio_queue p)) as [|n] eqn:Hun; [lia|].
      simpl.
      apply (mkPlaying _ _ _ W_Loop pending); close_session.
Qed.

Lemma playing_run (es : list event) (acc : list chunk) (c : sys * list obs) :
  playing tid acc c → Forall (playing_step tid) es →
  length acc + length (offered es) ≤ maxsize →
  playing tid (acc ++ offered es) (run_from c es).
Proof.
  revert acc c. induction es as [|e es IH]; intros acc c Hc Hes Hn.
  - unfold offered. simpl. by rewrite app_nil_r.
  - inversion_clear Hes as [|?? He Hes'].
    rewrite offered_cons in *. rewrite length_app in Hn.
    rewrite run_from_cons, app_assoc. apply IH; [|done|].
    + apply playing_step_keeps; [done..|lia].
    + rewrite length_app. lia.
Qed.

Lemma playing_work_step (acc : list chunk) (c : sys * list obs) :
  playing tid acc c →
  session_work tid (step_cfg c (Work tid true)).1 ≤ session_work tid c.1 - 1.
Proof.
  intros [w pending Hm Hp Ht Hl Hq Ho Hu Hpu Ha Hqt].
  destruct c as [[p ths m] tr]. simpl in *. subst m ths.
  unfold session_work, qsize. simpl.
  rewrite lookup_last_thread, insert_last_thread. simpl.
  rewrite lookup_last_thread.
  destruct w; simpl in *; try done.
  - lia.
  - rewrite Hp. simpl. lia.
  - unfold get_nowait. rewrite Hq.
    destruct pending as [|c pending]; simpl; rewrite ?Hq; simpl; lia.
  - destruct Hl as [st Hst]. rewrite Hst. simpl. lia.
  - unfold task_done.
    destruct (unfinished_tasks (audio_queue p)) as [|n] eqn:Hun; [lia|].
    simpl. lia.
Qed.

Lemma playing_work_bound (acc : list chunk) (c : sys * list obs) :
  playing tid acc c → session_work tid c.1 ≤ 4 * length acc + 2.
Proof.
  intros [w pending Hm Hp Ht Hl Hq Ho Hu Hpu Ha Hqt].
  unfold session_work, qsize. rewrite Ht, lookup_last_thread, Hq, length_fmap.
  rewrite <- Ho, !length_app. destruct w; simpl; lia.
Qed.

Lemma playing_work_done (acc : list chunk) (c : sys * list obs) :
  playing tid acc c → session_work tid c.1 = 0 →
  writes c.2 = acc ∧ items (audio_queue (self c.1)) = [].
Proof.
  intros [w pending Hm Hp Ht Hl Hq Ho Hu Hpu Ha Hqt].
  unfold session_work, qsize. rewrite Ht, lookup_last_thread, Hq, length_fmap.
  intros H0.
  assert (pending = [] ∧ in_hand w = []) as [-> Hh].
  { destruct w; simpl in *; try done; destruct pending; simpl in *; try done; lia. }
  rewrite Hh in Ho. simpl in Ho. by rewrite app_nil_r in Ho.
Qed.

Lemma playing_drain (acc : list chunk) (k : nat) (c : sys * list obs) :
  length acc ≤ maxsize →
  playing tid acc c →
  session_work tid c.1 ≤ k →
  let c' := run_from c (replicate k (Work tid true)) in
  playing tid acc c' ∧ session_work tid c'.1 = 0.
Proof.
  intros Hacc. revert c. induction k as [|k IH]; intros c Hc Hk; simpl.
  - split; [done|lia].
  - apply IH.
    + rewrite <- (app_nil_r acc).
      apply (playing_step_keeps acc c (Work tid true)); [done|by simpl|].
      unfold offered. simpl. lia.
    + pose proof (playing_work_step acc c Hc). lia.
Qed.

Lemma torn_down_step (n : nat) (s : sys) (e : event) :
  torn_down tid n s → after_failure_step tid e →
  torn_down tid (n - (if is_work tid e then 1 else 0)) (step s e).1
  ∧ writes (step s e).2 = [].
Proof.
  intros [w Ht Hl Hn] He. destruct s as [p ths m]. simpl in *. subst ths.
  destruct e as [c|t|j ok].
  - destruct c; try done; simpl; rewrite Nat.sub_0_r;
      (split; [apply (mkTornDown _ _ _ w)|]); step_cases;
      try done; destruct w; simpl in *; try done; naive_solver.
  - simpl. rewrite Nat.sub_0_r.
    (split; [apply (mkTornDown _ _ _ w)|]); step_cases;
      try done; destruct w; simpl in *; try done.
  - simpl in He. simpl is_work. case_bool_decide as Hj.
    + subst j. rewrite (He eq_refl). unfold step. simpl.
      rewrite lookup_last_thread, insert_last_thread.
      destruct w; simpl in *; try done.
      * destruct Hl as [st Hst]. rewrite Hst. simpl.
        split; [|done]. apply (mkTornDown _ _ _ W_Clear); simpl; try done. lia.
      * split; [|done]. apply (mkTornDown _ _ _ W_End); simpl; try done. lia.
      * split; [|done]. apply (mkTornDown _ _ _ W_End); simpl; try done. lia.
    + rewrite step_other_thread by done. simpl. rewrite Nat.sub_0_r.
      split; [|done]. by apply (mkTornDown _ _ _ w).
Qed.

Lemma torn_down_run (es : list event) (n : nat) (c : sys * list obs) :
  torn_down tid n c.1 → Forall (after_failure_step tid) es →
  torn_down tid (n - length (filter (is_work tid) es)) (run_from c es).1
  ∧ writes (run_from c es).2 = writes c.2.
Proof.
  revert n c. induction es as [|e es IH]; intros n c Hc Hes.
  - simpl. by rewrite Nat.sub_0_r.
  - inversion_clear Hes as [|?? He Hes'].
    destruct (torn_down_step n c.1 e Hc He) as [Hc' Hw].
    rewrite run_from_cons.
    destruct (IH _ (step_cfg c e) Hc' Hes') as [Hc'' Hw'].
    split.
    + destruct (is_work tid e) eqn:E.
      * rewrite filter_cons_True by (by rewrite E). simpl.
        by replace (n - S (length (filter (is_work tid) es)))
          with (n - 1 - length (filter (is_work tid) es)) by lia.
      * rewrite filter_cons_False by (rewrite E; simpl; tauto).
        by rewrite Nat.sub_0_r in Hc''.
    + rewrite Hw'. simpl. rewrite writes_app, Hw. by rewrite app_nil_r.
Qed.

Lemma torn_down_ended (n : nat) (s : sys) :
  torn_down tid n s →
  (n = 0 → thread_ended s tid = true)
  ∧ (thread_ended s tid = true →
     is_playing (self s) = false ∧ stream (self s) = None).
Proof.
  intros [w Ht Hl Hn]. unfold thread_ended. rewrite Ht, lookup_last_thread.
  destruct w; simpl in *; try done; split; try done; try lia; tauto.
Qed.

Lemma playing_stop (acc : list chunk) (c : sys * list obs) :
  playing tid acc c → stopping tid acc (step_cfg c (Call CStop)).
Proof.
  intros [w pending Hm Hp Ht Hl Hq Ho Hu Hpu Ha Hqt].
  destruct c as [[p ths m] tr]. simpl in *. subst m ths.
  unfold step_cfg. simpl. unfold stop, stop_from. simpl. rewrite Hp. simpl.
  apply (mkStopping _ _ _ w (writes tr ++ in_hand w)); simpl;
    rewrite ?app_nil_r, ?Hq, ?Hpu, ?chunks_of_Some; try done.
  - by rewrite <- Ho, app_assoc.
  - unfold qsize. rewrite Hq, length_fmap. lia.
  - destruct Hqt as [-> ->]. rewrite length_app. simpl. lia.
Qed.

Lemma stopping_main (acc : list chunk) (c : sys * list obs) (t : bool) :
  stopping tid acc c → stopping tid acc (step_cfg c (Main t)).
Proof.
  intros [w gone Hp Ht Hq Ho Hu Hi Hpu Hcnt].
  destruct c as [[p ths m] tr]. simpl in *. subst ths.
  unfold step_cfg, step, stop_resume, qsize in *. simpl.
  destruct m as [|cl|cl|cl|cl|cl]; simpl in *.
  - apply (mkStopping _ _ _ w gone); close_stopping.
  - unfold put_nowait. destruct (Queue_full (audio_queue p)); simpl.
    + apply (mkStopping _ _ _ w gone); close_stopping.
    + apply (mkStopping _ _ _ w gone); try close_stopping.
  - destruct (play_thread p) as [j|]; [destruct (thread_ended _ j || t)|]; simpl;
      apply (mkStopping _ _ _ w gone); close_stopping.
  - unfold Queue_empty. destruct (items (audio_queue p)) as [|x q] eqn:Hit.
    + unfold stop_return. destruct cl; simpl;
        apply (mkStopping _ _ _ w gone); simpl; rewrite ?Hit; close_stopping.
    + apply (mkStopping _ _ _ w gone); simpl; rewrite ?Hit; close_stopping.
  - unfold get_nowait. destruct (items (audio_queue p)) as [|x q] eqn:Hit.
    + unfold stop_return. destruct cl; simpl;
        apply (mkStopping _ _ _ w gone); simpl; rewrite ?Hit; close_stopping.
    + apply (mkStopping _ _ _ w (gone ++ chunks_of [x])); try close_stopping.
      simpl. rewrite Hq. unfold chunks_of. simpl.
      destruct x; simpl; by rewrite <- ?app_assoc, ?app_nil_r.
  - unfold task_done.
    destruct (unfinished_tasks (audio_queue p)) as [|n] eqn:Hun; [lia|].
    apply (mkStopping _ _ _ w gone); close_stopping.
Qed.

Lemma stopping_work (acc : list chunk) (c : sys * list obs) (j : nat) (ok : bool) :
  stopping tid acc c → stopping tid acc (step_cfg c (Work j ok)).
Proof.
  intros [w gone Hp Ht Hq Ho Hu Hi Hpu Hcnt].
  destruct c as [[p ths m] tr]. simpl in *. subst ths.
  unfold step_cfg, qsize in *. cbn [fst snd].
  destruct (decide (j = tid)) as [->|Hj].
  2:{ rewrite step_other_thread by done.
      apply (mkStopping _ _ _ w gone); close_stopping. }
  unfold step. simpl. rewrite lookup_last_thread, insert_last_thread.
  destruct w; simpl in *.
  - destruct ok; simpl.
    + apply (mkStopping _ _ _ W_Loop gone); close_stopping.
    + apply (mkStopping _ _ _ W_End gone); close_stopping.
  - rewrite Hp. simpl. apply (mkStopping _ _ _ W_Close gone); close_stopping.
  - unfold get_nowait. destruct (items (audio_queue p)) as [|[x|] q] eqn:Hit; simpl.
    + apply (mkStopping _ _ _ W_Loop gone); close_stopping.
    + apply (mkStopping _ _ _ (W_Write x) (gone ++ [x])); try close_stopping.
      * simpl. rewrite Hq. unfold chunks_of. simpl. by rewrite <- app_assoc.
      * simpl. rewrite writes_app. simpl. rewrite app_nil_r in *.
        by apply sublist_app.
    + apply (mkStopping _ _ _ W_Close gone); close_stopping.
  - destruct (stream p) as [st|]; [destruct ok|]; simpl.
    + apply (mkStopping _ _ _ W_TaskDone gone); close_stopping.
    + apply (mkStopping _ _ _ W_Close gone); close_stopping.
    + apply (mkStopping _ _ _ W_Close gone); close_stopping.
  - unfold task_done.
    destruct (unfinished_tasks (audio_queue p)) as [|n] eqn:Hun; simpl.
    + apply (mkStopping _ _ _ W_Close gone); close_stopping.
    + apply (mkStopping _ _ _ W_Loop gone); close_stopping.
  - destruct (stream p) as [st|]; [destruct ok|]; simpl.
    + apply (mkStopping _ _ _ W_Clear gone); close_stopping.
    + apply (mkStopping _ _ _ W_End gone); close_stopping.
    + apply (mkStopping _ _ _ W_End gone); close_stopping.
  - apply (mkStopping _ _ _ W_End gone); close_stopping.
  - apply (mkStopping _ _ _ W_End gone); close_stopping.
Qed.

Lemma stopping_run (acc : list chunk) (es : list event) (c : sys * list obs) :
  Forall thread_step es → stopping tid acc c → stopping tid acc (run_from c es).
Proof.
  apply (run_from_invariant (stopping tid acc) thread_step).
  clear. intros c [cl|t|j ok] He Hc; [done|..].
  - by apply stopping_main.
  - by apply stopping_work.
Qed.

Lemma blocked_step (s : sys) (e : event) :
  thread_step e → blocked tid s → blocked tid (step s e).1.
Proof.
  intros He [w cl Hm Hp Hf Ht Hw]. destruct s as [p ths m]. simpl in *. subst.
  destruct e as [c|t|j ok]; [done|..].
  - unfold step, stop_resume. simpl.
    rewrite put_nowait_None by (rewrite Hf; done). simpl.
    by apply (mkBlocked _ _ w cl).
  - destruct (decide (j = tid)) as [->|Hj].
    2:{ rewrite step_other_thread by done. by apply (mkBlocked _ _ w cl). }
    unfold step. simpl. rewrite lookup_last_thread, insert_last_thread.
    destruct w; simpl in *; try done.
    + destruct ok; simpl;
        [by apply (mkBlocked _ _ W_Loop cl)|by apply (mkBlocked _ _ W_End cl)].
    + rewrite Hp. simpl. by apply (mkBlocked _ _ W_Close cl).
    + destruct (stream p); [destruct ok|]; simpl;
        [by apply (mkBlocked _ _ W_TaskDone cl)|by apply (mkBlocked _ _ W_Close cl)..].
    + destruct (task_done (audio_queue p)) as [q|] eqn:Hq; simpl.
      * apply (mkBlocked _ _ W_Loop cl); simpl; try done.
        unfold task_done in Hq. destruct (unfinished_tasks _); by simplify_eq.
      * by apply (mkBlocked _ _ W_Close cl).
    + destruct (stream p); [destruct ok|]; simpl;
        [by apply (mkBlocked _ _ W_Clear cl)|by apply (mkBlocked _ _ W_End cl)..].
    + by apply (mkBlocked _ _ W_End cl).
    + by apply (mkBlocked _ _ W_End cl).
Qed.

(** The bound on the queue in the statements about [close] and [stop]
    cannot be dropped.  When [stop] is called with 100 items queued and the worker is
    not inside [get], the worker leaves at its next check of [is_playing]
    without taking an item, and [put(None)] waits for a free slot that
    never comes: [stop] does not return. *)
Lemma stop_full_queue_waits (acc : list chunk) (c : sys * list obs)
    (es : list event) :
  playing tid acc c →
  qsize (audio_queue (self c.1)) = maxsize →
  threads c.1 !! tid ≠ Some W_Get →
  Forall thread_step es →
  caller (run_from c (Call CStop :: es)).1 ≠ M_Idle.
Proof.
  intros [w pending Hm Hp Ht Hl Hq Ho Hu Hpu Ha Hqt] Hfull Hw Hes.
  rewrite Ht, lookup_last_thread in Hw.
  assert (blocked tid (run_from c (Call CStop :: es)).1) as [w' cl Hm' _ _ _ _].
  { rewrite run_from_cons.
    apply (run_from_sys_invariant (blocked tid) thread_step);
      [intros; by apply blocked_step|done|].
    destruct c as [[p ths m] tr]. simpl in *. subst.
    unfold stop, stop_from. simpl. rewrite Hp. simpl.
    apply (mkBlocked _ _ w false); simpl; try done. congruence. }
  by rewrite Hm'.
Qed.

End Session.

(** ** The session as the caller sees it *)

(** C1: in a session that plays on a working device, chunks are written
    in the order in which [add_chunk] accepted them.  At most 100 chunks
    offered while the worker takes its steps are all accepted; at every
    moment those written are the first of them, in order; and once the
    worker has had its steps, exactly they have been written, in order,
    and the queue is empty.  And in whatever run, an item leaves the queue
    only when every item put before it has left it: so it is for the
    [None] of [stop]. *)
Theorem fifo_delivery (s : sys) (es : list event) (k : nat) :
  ready s →
  let tid := length (threads s) in
  Forall (playing_step tid) es →
  length (offered es) ≤ 100 →
  4 * length (offered es) + 2 ≤ k →
  let c1 := run s (Call CStart :: es) in
  let c2 := run_from c1 (replicate k (Work tid true)) in
  accepted_all c2.2
  ∧ puts c2.2 = Some <$> offered es
  ∧ (∃ later, offered es = writes c1.2 ++ later)
  ∧ writes c2.2 = offered es
  ∧ items (audio_queue (self c2.1)) = []
  ∧ is_playing (self c2.1) = true
  ∧ (∀ (es' : list event) (tr1 tr2 : list obs) (x : item),
       (run s es').2 = tr1 ++ OGet x :: tr2 →
       ∃ later, puts tr1 = gets tr1 ++ x :: later).
Proof.
  intros Hs tid Hes Hn Hk c1 c2.
  assert (playing tid (offered es) c1) as H1.
  { unfold c1, run. rewrite run_from_cons.
    apply (playing_run tid es [] _); [by apply start_playing|done|].
    simpl. unfold maxsize. lia. }
  destruct (playing_drain tid (offered es) k c1) as [H2 H0]; [done|done|..].
  { pose proof (playing_work_bound _ _ _ H1). lia. }
  destruct (playing_work_done _ _ _ H2 H0) as [Hw Hq].
  fold c2 in H2, H0, Hw, Hq.
  repeat split; try done.
  - by destruct H2.
  - by destruct H2.
  - destruct H1 as [w pending _ _ _ _ _ Ho _ _ _ _]. eexists. by rewrite <- Ho.
  - by destruct H2.
  - intros es' tr1 tr2 x Htr. apply (fifo_get tr1 tr2).
    rewrite <- Htr.
    destruct (run_from_fifo es' (s, []) []) as [Hf _]; [|done].
    simpl. destruct Hs as (_ & _ & _ & -> & _). done.
Qed.

Lemma fifo_delivery_witness :
  let s := (run new_player [Call (CSetAudioFormat 2 1 44100)]).1 in
  let c1 := ["a"; "b"]%byte in
  let c2 := ["c"]%byte in
  let es := [Call (CAddChunk (Some c1)); Work 0 true; Call (CAddChunk (Some c2))] in
  writes (run s (Call CStart :: es ++ replicate 10 (Work 0 true))).2 = [c1; c2].
Proof.
  intros s c1 c2 es.
  pose proof (fifo_delivery s es 10) as H.
  destruct H as (_ & _ & _ & H & _).
  - repeat split.
  - repeat constructor.
  - vm_compute. lia.
  - vm_compute. lia.
  - rewrite app_comm_cons, run_app. exact H.
Defined.






(** * More properties of the player *)

(** ** The queue stays within its bound *)

Lemma step_qsize (s : sys) (e : event) :
  qsize (audio_queue (self s)) ≤ maxsize →
  qsize (audio_queue (self (step s e).1)) ≤ maxsize.
Proof.
  intros Hq. destruct s as [p ths m]. unfold qsize in *.
  destruct e as [c|t|tid ok]; step_cases;
    unfold Queue_full, qsize in *;
    repeat match goal with
           | H : items _ = _ |- _ => rewrite H in *; clear H
           | H : bool_decide _ = false |- _ => apply bool_decide_eq_false in H
           end;
    rewrite ?length_app; simpl in *; lia.
Qed.

(** X1: in every run that begins with [__init__], the queue never holds
    more than 100 items, whatever the caller, the workers and the device
    do. *)
Theorem queue_bounded (cs : Z) (es : list event) :
  qsize (audio_queue (self (run (mkSys (init cs) [] M_Idle) es).1)) ≤ 100.
Proof.
  apply (run_from_sys_invariant
           (λ s, qsize (audio_queue (self s)) ≤ maxsize) (λ _, True));
    [intros; by apply step_qsize|by apply Forall_true|].
  simpl. unfold qsize, maxsize. simpl. lia.
Qed.

(** ** No method raises but [start] *)

Lemma step_only_start_raises (s : sys) (e : event) :
  sys_inv s → Forall only_start_raises (step s e).2.
Proof.
  intros [_ _ Ht]. destruct s as [p ths m]. unfold held in *.
  destruct e as [c|t|tid ok]; step_cases;
    try (exfalso; lia); repeat constructor.
Qed.


(** ** Backpressure *)

Lemma returns_app (tr1 tr2 : list obs) :
  returns (tr1 ++ tr2) = returns tr1 ++ returns tr2.
Proof. apply omap_app. Qed.

Lemma run_from_shift (es : list event) (s : sys) (tr : list obs) :
  run_from (s, tr) es = ((run s es).1, tr ++ (run s es).2).
Proof.
  unfold run. revert s tr. induction es as [|e es IH]; intros s tr.
  - simpl. by rewrite app_nil_r.
  - rewrite !run_from_cons. unfold step_cfg. cbn [fst snd].
    rewrite IH, (IH _ ([] ++ _)). simpl. by rewrite app_assoc.
Qed.

Lemma run_cons (s : sys) (e : event) (es : list event) :
  run s (e :: es)
  = ((run (step s e).1 es).1, (step s e).2 ++ (run (step s e).1 es).2).
Proof.
  unfold run at 1. rewrite run_from_cons. unfold step_cfg. cbn [fst snd app].
  apply run_from_shift.
Qed.

(** X3: while the player plays and no worker takes an item, [add_chunk]
    called for a sequence of items accepts as many as the queue has room
    for, in order, and returns [False] for all the others, which leave no
    trace in the queue. *)
Theorem add_chunk_backpressure (s : sys) (xs : list item) :
  caller s = M_Idle →
  is_playing (self s) = true →
  let room := maxsize - qsize (audio_queue (self s)) in
  let c := run s (add_calls xs) in
  returns c.2 = backpressure room xs
  ∧ items (audio_queue (self c.1)) = items (audio_queue (self s)) ++ take room xs
  ∧ is_playing (self c.1) = true
  ∧ threads c.1 = threads s.
Proof.
  revert s. induction xs as [|x xs IH]; intros s Hm Hp room c.
  - subst c. unfold backpressure. simpl. by rewrite take_nil, app_nil_r.
  - subst c. unfold add_calls. rewrite fmap_cons, run_cons. fold (add_calls xs).
    destruct s as [p ths m]. simpl in Hm, Hp. subst m.
    cbn [step caller do_call self fst snd]. unfold add_chunk. rewrite Hp.
    destruct (decide (qsize (audio_queue p) < maxsize)) as [Hlt|Hge].
    + rewrite put_nowait_Some by done. cbn [fst snd].
      specialize (IH (mkSys (set_audio_queue p
                     (mkQueue (items (audio_queue p) ++ [x])
                        (S (unfinished_tasks (audio_queue p))))) ths M_Idle)
                    eq_refl Hp).
      cbn zeta in IH. destruct IH as (Hr & Hi & Hp' & Ht).
      simpl in Hr, Hi, Hp', Ht |- *.
      rewrite Hr, Hi, Hp', Ht. unfold qsize in *. simpl. rewrite length_app. simpl.
      destruct room as [|room'] eqn:Hroom; [subst room; simpl in *; lia|].
      replace (maxsize - (length (items (audio_queue p)) + 1)) with room'
        by (subst room; simpl in *; lia).
      unfold backpressure. simpl. by rewrite <- app_assoc.
    + rewrite put_nowait_None by lia. cbn [fst snd].
      specialize (IH (mkSys p ths M_Idle) eq_refl Hp).
      cbn zeta in IH. destruct IH as (Hr & Hi & Hp' & Ht).
      simpl in Hr, Hi, Hp', Ht |- *.
      rewrite Hr, Hi, Hp', Ht.
      assert (room = 0) as Hroom by (subst room; simpl; lia).
      assert (maxsize - qsize (audio_queue p) = 0) as -> by (simpl in *; lia).
      rewrite Hroom. unfold backpressure. simpl. by rewrite !Nat.sub_0_r.
Qed.

Lemma add_chunk_backpressure_witness :
  let s := (run new_player [Call (CSetAudioFormat 2 1 44100); Call CStart]).1 in
  let xs := replicate 150 (Some ["a"]%byte) in
  returns (run s (add_calls xs)).2 = backpressure 100 xs.
Proof.
  intros s xs.
  destruct (add_chunk_backpressure s xs) as (H & _); [reflexivity..|].
  exact H.
Defined.

(** ** stop with a full queue *)

(** X4: when [stop] or [close] is called with 100 items queued while the
    worker is anywhere but inside [get], it never returns: the worker
    leaves at its next check of [is_playing] without taking an item, and
    the caller stays inside [put(None)], the queue full, whatever the
    threads do from then on. *)
Theorem stop_blocks_when_full (s : sys) (tid : nat) (w : wpc) (cl : bool)
    (es : list event) :
  caller s = M_Idle →
  is_playing (self s) = true →
  qsize (audio_queue (self s)) = maxsize →
  threads s = replicate tid W_End ++ [w] →
  w ≠ W_Get →
  Forall thread_step es →
  let c := run s (Call (if cl then CClose else CStop) :: es) in
  caller c.1 = M_StopPut cl
  ∧ qsize (audio_queue (self c.1)) = maxsize
  ∧ is_playing (self c.1) = false
  ∧ p_terminated (self c.1) = p_terminated (self s).
Proof.
  intros Hm Hp Hq Ht Hw Hes c.
  assert (blocked tid c.1 ∧ caller c.1 = M_StopPut cl
          ∧ p_terminated (self c.1) = p_terminated (self s)) as (Hb & Hc & Hpt).
  { unfold c, run. rewrite run_from_cons.
    apply (run_from_sys_invariant
             (λ s', blocked tid s' ∧ caller s' = M_StopPut cl
                    ∧ p_terminated (self s') = p_terminated (self s))
             thread_step); [|done|].
    - clear -Hq. intros s' e He (Hb & Hc & Hpt).
      split; [by apply blocked_step|].
      destruct Hb as [w' cl' Hm' Hp' Hf' Ht' Hw'].
      destruct s' as [p' ths' m']. simpl in *. subst.
      destruct e as [c|t|j ok]; [done|..].
      + unfold step, stop_resume. cbn [caller self].
        rewrite put_nowait_None by (rewrite Hf'; done). done.
      + simpl. destruct (_ !! j) as [w''|]; [|done]. simpl. split; [done|].
        rewrite <- Hpt. destruct w''; simpl; repeat case_match; done.
    - destruct s as [p ths m]. simpl in *. subst.
      destruct cl; simpl; unfold close, stop, stop_from; simpl; rewrite Hp; simpl.
      + split; [by apply (mkBlocked _ _ w true)|done].
      + split; [by apply (mkBlocked _ _ w false)|done]. }
  destruct Hb as [w' cl' _ Hp' Hf' _ _]. done.
Qed.

Lemma stop_blocks_when_full_witness :
  let s := (run new_player
              (Call (CSetAudioFormat 2 1 44100) :: Call CStart
               :: add_calls (replicate 100 (Some ["a"]%byte)))).1 in
  caller (run s (Call CStop :: replicate 50 (Work 0 true)
                 ++ replicate 50 (Main true))).1 = M_StopPut false.
Proof.
  intros s.
  pose proof (stop_blocks_when_full s 0 W_Open false
                (replicate 50 (Work 0 true) ++ replicate 50 (Main true))) as H.
  destruct H as (H & _).
  - reflexivity.
  - reflexivity.
  - reflexivity.
  - reflexivity.
  - discriminate.
  - apply Forall_app. split; apply Forall_replicate; exact I.
  - exact H.
Defined.

(** ** What is written comes from what was accepted *)

Lemma step_puts_offered (s : sys) (e : event) :
  sublist (chunks_of (puts (step s e).2)) (offered [e]).
Proof.
  destruct s as [p ths m].
  destruct e as [[| |[x|]| |]|t|tid ok]; step_cases;
    unfold chunks_of, puts, offered; simpl; repeat constructor.
Qed.

Lemma run_puts_offered (es : list event) (s : sys) :
  sublist (chunks_of (puts (run s es).2)) (offered es).
Proof.
  revert s. induction es as [|e es IH]; intros s.
  - constructor.
  - rewrite run_cons, offered_cons. cbn [snd].
    rewrite puts_app, chunks_of_app.
    apply sublist_app; [apply step_puts_offered|apply IH].
Qed.

Lemma chunks_of_cons (x : item) (l : list item) :
  chunks_of (x :: l) = chunks_of [x] ++ chunks_of l.
Proof. by destruct x. Qed.

Lemma flowing_call (tid : nat) (c : sys * list obs) (cl : call) :
  cl ≠ CStart → flowing tid c → flowing tid (step_cfg c (Call cl)).
Proof.
  intros Hcl [w gone Ht Hq Ho].
  destruct c as [[p ths m] tr]. simpl in *. subst ths.
  unfold step_cfg, step. cbn [fst snd caller].
  destruct m; [|apply (mkFlowing _ _ w gone); close_stopping..].
  destruct cl as [sw ch sr| |x| |]; [|done|..]; simpl.
  - apply (mkFlowing _ _ w gone); close_stopping.
  - unfold add_chunk. destruct (is_playing p); simpl.
    + destruct (put_nowait (audio_queue p) x) as [q|] eqn:Hput; simpl.
      * unfold put_nowait in Hput. destruct (Queue_full _); simplify_eq.
        apply (mkFlowing _ _ w gone); try close_stopping.
        simpl. rewrite puts_app, !chunks_of_app, Hq. simpl.
        by rewrite <- app_assoc.
      * apply (mkFlowing _ _ w gone); close_stopping.
    + apply (mkFlowing _ _ w gone); close_stopping.
  - unfold stop, stop_from, stop_return. simpl. destruct (is_playing p); simpl;
      apply (mkFlowing _ _ w gone); close_stopping.
  - unfold close, stop_from, stop_return. simpl. destruct (is_playing p); simpl;
      apply (mkFlowing _ _ w gone); close_stopping.
Qed.

Lemma flowing_main (tid : nat) (c : sys * list obs) (t : bool) :
  flowing tid c → flowing tid (step_cfg c (Main t)).
Proof.
  intros [w gone Ht Hq Ho].
  destruct c as [[p ths m] tr]. simpl in *. subst ths.
  unfold step_cfg, step, stop_resume. simpl.
  destruct m as [|cl|cl|cl|cl|cl]; simpl in *.
  - apply (mkFlowing _ _ w gone); close_stopping.
  - unfold put_nowait. destruct (Queue_full (audio_queue p)); simpl.
    + apply (mkFlowing _ _ w gone); close_stopping.
    + apply (mkFlowing _ _ w gone); close_stopping.
  - destruct (play_thread p) as [j|]; [destruct (thread_ended _ j || t)|]; simpl;
      apply (mkFlowing _ _ w gone); close_stopping.
  - unfold stop_return.
    destruct (Queue_empty (audio_queue p)); [destruct cl|]; simpl;
      apply (mkFlowing _ _ w gone); close_stopping.
  - unfold get_nowait, stop_return.
    destruct (items (audio_queue p)) as [|x q] eqn:Hit; [destruct cl|]; simpl.
    + apply (mkFlowing _ _ w gone); simpl; rewrite ?Hit; close_stopping.
    + apply (mkFlowing _ _ w gone); simpl; rewrite ?Hit; close_stopping.
    + apply (mkFlowing _ _ w (gone ++ chunks_of [x])); simpl.
      * done.
      * rewrite puts_app. simpl. rewrite app_nil_r, Hq, (chunks_of_cons x q).
        by rewrite app_assoc.
      * rewrite writes_app. simpl. rewrite app_nil_r.
        by apply sublist_inserts_r.
  - destruct (task_done (audio_queue p)) as [q|] eqn:Htd; simpl.
    + unfold task_done in Htd. destruct (unfinished_tasks _); simplify_eq.
      apply (mkFlowing _ _ w gone); close_stopping.
    + apply (mkFlowing _ _ w gone); close_stopping.
Qed.

Lemma flowing_work (tid : nat) (c : sys * list obs) (j : nat) (ok : bool) :
  flowing tid c → flowing tid (step_cfg c (Work j ok)).
Proof.
  intros [w gone Ht Hq Ho].
  destruct c as [[p ths m] tr]. simpl in *. subst ths.
  unfold step_cfg. cbn [fst snd].
  destruct (decide (j = tid)) as [->|Hj].
  2:{ rewrite step_other_thread by done.
      apply (mkFlowing _ _ w gone); close_stopping. }
  unfold step. simpl. rewrite lookup_last_thread, insert_last_thread.
  destruct w; simpl in *.
  - destruct ok; simpl.
    + apply (mkFlowing _ _ W_Loop gone); close_stopping.
    + apply (mkFlowing _ _ W_End gone); close_stopping.
  - destruct (is_playing p); simpl.
    + apply (mkFlowing _ _ W_Get gone); close_stopping.
    + apply (mkFlowing _ _ W_Close gone); close_stopping.
  - unfold get_nowait. destruct (items (audio_queue p)) as [|[x|] q] eqn:Hit; simpl.
    + apply (mkFlowing _ _ W_Loop gone); simpl; rewrite ?Hit; close_stopping.
    + apply (mkFlowing _ _ (W_Write x) (gone ++ [x])); simpl.
      * done.
      * rewrite puts_app. simpl. rewrite app_nil_r, Hq. unfold chunks_of. simpl.
        by rewrite <- app_assoc.
      * rewrite writes_app. simpl. rewrite app_nil_r in *.
        by apply sublist_app.
    + apply (mkFlowing _ _ W_Close gone); simpl.
      * done.
      * rewrite puts_app. simpl. by rewrite app_nil_r, Hq.
      * rewrite writes_app. simpl. by rewrite !app_nil_r in *.
  - destruct (stream p) as [st|]; [destruct ok|]; simpl.
    + apply (mkFlowing _ _ W_TaskDone gone); close_stopping.
    + apply (mkFlowing _ _ W_Close gone); close_stopping.
    + apply (mkFlowing _ _ W_Close gone); close_stopping.
  - destruct (task_done (audio_queue p)) as [q|] eqn:Htd; simpl.
    + unfold task_done in Htd. destruct (unfinished_tasks _); simplify_eq.
      apply (mkFlowing _ _ W_Loop gone); close_stopping.
    + apply (mkFlowing _ _ W_Close gone); close_stopping.
  - destruct (stream p) as [st|]; [destruct ok|]; simpl.
    + apply (mkFlowing _ _ W_Clear gone); close_stopping.
    + apply (mkFlowing _ _ W_End gone); close_stopping.
    + apply (mkFlowing _ _ W_End gone); close_stopping.
  - apply (mkFlowing _ _ W_End gone); close_stopping.
  - apply (mkFlowing _ _ W_End gone); close_stopping.
Qed.

Lemma flowing_run (tid : nat) (es : list event) (c : sys * list obs) :
  Forall (λ e, e ≠ Call CStart) es → flowing tid c → flowing tid (run_from c es).
Proof.
  apply (run_from_invariant (flowing tid) (λ e, e ≠ Call CStart)).
  clear. intros c [cl|t|j ok] He Hc.
  - apply flowing_call; [congruence|done].
  - by apply flowing_main.
  - by apply flowing_work.
Qed.

Lemma session_flowing (s : sys) (es : list event) :
  ready s →
  Forall (λ e, e ≠ Call CStart) es →
  flowing (length (threads s)) (run s (Call CStart :: es)).
Proof.
  intros Hs Hes.
  unfold run. rewrite run_from_cons. apply flowing_run; [done|].
  destruct Hs as (Hm & Hp & Hf & Hit & Ht).
  destruct s as [p ths m]. simpl in *. subst m.
  unfold step_cfg. simpl. unfold start. simpl. rewrite Hp, Hf. simpl.
  apply (mkFlowing _ _ W_Open []); simpl.
  - by rewrite <- Ht.
  - by rewrite Hit.
  - constructor.
Qed.

Lemma flowing_writes (tid : nat) (c : sys * list obs) :
  flowing tid c → sublist (writes c.2) (chunks_of (puts c.2)).
Proof.
  intros [w gone _ Hq Ho]. rewrite Hq. apply sublist_inserts_r.
  etrans; [|exact Ho]. by apply sublist_inserts_r.
Qed.

(** X5: in a session, whatever the caller calls short of a new [start],
    whatever the device does and however the threads interleave, the
    chunks written are, in order, among the chunks that [add_chunk]
    accepted, and these, in order, among the chunks it was given: nothing
    is written twice, out of order, or out of nowhere. *)
Theorem session_writes_in_order (s : sys) (es : list event) :
  ready s →
  Forall (λ e, e ≠ Call CStart) es →
  let c := run s (Call CStart :: es) in
  sublist (writes c.2) (chunks_of (puts c.2))
  ∧ sublist (chunks_of (puts c.2)) (offered es)
  ∧ length (writes c.2) ≤ length (offered es).
Proof.
  intros Hs Hes c.
  pose proof (flowing_writes _ _ (session_flowing s es Hs Hes)) as H1.
  fold c in H1.
  assert (sublist (chunks_of (puts c.2)) (offered es)) as H2.
  { pose proof (run_puts_offered (Call CStart :: es) s) as H.
    by rewrite offered_cons in H. }
  split; [done|]. split; [done|].
  apply sublist_length. by etrans.
Qed.

Lemma session_writes_in_order_witness :
  let s := (run new_player [Call (CSetAudioFormat 2 1 44100)]).1 in
  let es := add_calls (replicate 120 (Some ["a"]%byte))
            ++ [Work 0 true; Work 0 true; Work 0 false; Call CStop; Main true;
                Call CClose] in
  length (writes (run s (Call CStart :: es)).2) ≤ 120.
Proof.
  intros s es.
  destruct (session_writes_in_order s es) as (_ & _ & H).
  - repeat split.
  - apply Forall_app. split.
    + apply Forall_fmap, Forall_true. done.
    + repeat constructor; done.
  - exact H.
Defined.

(** ** Reading a file in chunks *)

Lemma read_loop_concat (fuel : nat) (wf : Wave_read) (n : Z) :
  (n * framesize wf ≠ 0)%Z →
  length (wf_data wf) < fuel →
  concat (read_loop fuel wf n) = wf_data wf.
Proof.
  intros Hn. revert wf Hn.
  induction fuel as [|fuel IH]; intros wf Hn Hf; [lia|].
  simpl. unfold readframes.
  destruct (decide (n = 0%Z)) as [->|_]; [lia|].
  destruct (decide (n * framesize wf < 0)%Z) as [Hneg|Hpos]; simpl.
  - destruct (wf_data wf) as [|b data] eqn:Hd; [done|].
    simpl. destruct fuel as [|fuel']; simpl; [by rewrite app_nil_r|].
    unfold readframes. simpl. rewrite decide_False by lia.
    unfold framesize in *. simpl. rewrite decide_True by done.
    simpl. by rewrite app_nil_r.
  - destruct (take _ (wf_data wf)) as [|b c] eqn:Ht.
    + destruct (wf_data wf) as [|b data] eqn:Hd; [done|].
      destruct (Z.to_nat (n * framesize wf)) eqn:Hz; [lia|done].
    + simpl. rewrite IH.
      * simpl. rewrite app_comm_cons, <- Ht. apply take_drop.
      * done.
      * simpl. rewrite length_drop.
        assert (0 < Z.to_nat (n * framesize wf)) by lia.
        assert (0 < length (wf_data wf)).
        { destruct (wf_data wf); [by rewrite take_nil in Ht|simpl; lia]. }
        lia.
Qed.

Lemma read_loop_sizes (fuel : nat) (wf : Wave_read) (n : Z) :
  (0 < n * framesize wf)%Z →
  Forall (λ c, 0 < length c ≤ Z.to_nat (n * framesize wf))
    (read_loop fuel wf n).
Proof.
  intros Hn. revert wf Hn.
  induction fuel as [|fuel IH]; intros wf Hn; [constructor|].
  simpl. unfold readframes.
  destruct (decide (n = 0%Z)) as [->|_]; [lia|].
  rewrite decide_False by lia. simpl.
  destruct (take _ (wf_data wf)) as [|b c] eqn:Ht; [constructor|].
  constructor.
  - rewrite <- Ht. rewrite length_take. split; [|lia].
    assert (length (take (Z.to_nat (n * framesize wf)) (wf_data wf)) ≠ 0)
      by (rewrite Ht; done).
    rewrite length_take in *. lia.
  - apply (IH (mkWave _ _)). done.
Qed.

Lemma read_loop_fuel (fuel1 fuel2 : nat) (wf : Wave_read) (n : Z) :
  length (wf_data wf) < fuel1 → length (wf_data wf) < fuel2 →
  read_loop fuel1 wf n = read_loop fuel2 wf n.
Proof.
  revert fuel2 wf. induction fuel1 as [|fuel1 IH]; intros fuel2 wf H1 H2; [lia|].
  destruct fuel2 as [|fuel2]; [lia|].
  simpl. unfold readframes.
  destruct (decide (n = 0%Z)) as [->|Hn0]; [done|].
  destruct (decide (n * framesize wf < 0)%Z) as [Hneg|Hpos]; simpl.
  - destruct (wf_data wf) as [|b data] eqn:Hd; [done|]. f_equal.
    destruct fuel1, fuel2; simpl; try done; unfold readframes; simpl;
      rewrite ?decide_False by done; unfold framesize in *; simpl;
      rewrite ?decide_True by done; done.
  - destruct (take _ (wf_data wf)) as [|b c] eqn:Ht; [done|]. f_equal.
    assert (0 < length (wf_data wf)).
    { destruct (wf_data wf); [by rewrite take_nil in Ht|simpl; lia]. }
    assert (Z.to_nat (n * framesize wf) ≠ 0).
    { intros Hz. by rewrite Hz in Ht. }
    apply IH; simpl; rewrite length_drop; lia.
Qed.

(** X6: the reading loop of [example_play_from_file] cuts the frames of
    the file into chunks without loss, change or reordering: for a chunk
    size and a frame size that are positive, the chunks put end to end are
    the bytes of the file, each chunk is non-empty and of at most
    [chunk_size] frames, and more rounds of the loop would read nothing
    more. *)
Theorem file_chunks_round_trip (wf : Wave_read) (n : Z) (fuel : nat) :
  (0 < n)%Z → (0 < framesize wf)%Z →
  concat (file_chunks wf n) = wf_data wf
  ∧ Forall (λ c, 0 < length c ≤ Z.to_nat (n * framesize wf)) (file_chunks wf n)
  ∧ (length (wf_data wf) < fuel → read_loop fuel wf n = file_chunks wf n).
Proof.
  intros Hn Hf. unfold file_chunks. split; [|split].
  - apply read_loop_concat; lia.
  - apply read_loop_sizes. lia.
  - intros Hfuel. apply read_loop_fuel; lia.
Qed.

Lemma file_chunks_round_trip_witness :
  file_chunks (mkWave (mkHeader 2 1 44100) ["a"; "b"; "c"; "d"; "e"; "f"]%byte) 2
  = [["a"; "b"; "c"; "d"]; ["e"; "f"]]%byte.
Proof.
  destruct (file_chunks_round_trip
              (mkWave (mkHeader 2 1 44100) ["a"; "b"; "c"; "d"; "e"; "f"]%byte)
              2 7) as (_ & _ & H); [done|done|].
  rewrite <- H by (simpl; lia). reflexivity.
Defined.

(** ** example_play_from_file *)

Lemma calls_of_app (es1 es2 : list event) :
  calls_of (es1 ++ es2) = calls_of es1 ++ calls_of es2.
Proof. apply omap_app. Qed.

Lemma calls_of_cons_inv (es : list event) (c : call) (cs : list call) :
  calls_of es = c :: cs →
  ∃ pre post, es = pre ++ Call c :: post ∧ Forall thread_step pre
              ∧ calls_of post = cs.
Proof.
  induction es as [|e es IH]; [done|].
  destruct e as [c'|t|j ok]; simpl.
  - intros [= -> <-]. by exists [], es.
  - intros H. destruct (IH H) as (pre & post & -> & Hpre & Hpost).
    exists (Main t :: pre), post. repeat split; [by constructor|done].
  - intros H. destruct (IH H) as (pre & post & -> & Hpre & Hpost).
    exists (Work j ok :: pre), post. repeat split; [by constructor|done].
Qed.

Lemma calls_of_not_start (es : list event) :
  CStart ∉ calls_of es → Forall (λ e, e ≠ Call CStart) es.
Proof.
  induction es as [|e es IH]; [constructor|].
  destruct e as [c|t|j ok]; simpl; intros H.
  - apply not_elem_of_cons in H as [Hc H]. constructor; [congruence|by apply IH].
  - constructor; [done|by apply IH].
  - constructor; [done|by apply IH].
Qed.

Lemma offered_calls_of (es : list event) :
  offered es
  = omap (λ c, match c with CAddChunk x => x | _ => None end) (calls_of es).
Proof.
  induction es as [|e es IH]; [done|].
  rewrite offered_cons, IH. by destruct e as [[| |[?|]| |]| |].
Qed.

(** While no thread exists and the caller is idle, nothing happens. *)
Lemma idle_run (es : list event) (s : sys) (tr : list obs) :
  threads s = [] → caller s = M_Idle → Forall thread_step es →
  run_from (s, tr) es = (s, tr).
Proof.
  intros Ht Hm Hes. induction Hes as [|e es He Hes IH]; [done|].
  rewrite run_from_cons. rewrite <- IH at 2. f_equal.
  destruct s as [p ths m]. simpl in *. subst.
  destruct e as [c|t|j ok]; [done|..]; unfold step_cfg; simpl;
    by rewrite app_nil_r.
Qed.

Lemma step_opens (s : sys) (e : event) :
  Forall (opens_with (stream_of (self s))) (step s e).2.
Proof.
  destruct s as [p ths m].
  destruct e as [c|t|tid ok]; step_cases; repeat constructor.
Qed.

Lemma run_opens (es : list event) (s : sys) :
  Forall (λ e, ¬ is_set_audio_format e) es →
  Forall (opens_with (stream_of (self s))) (run s es).2.
Proof.
  intros Hes.
  assert (configuration (self (run s es).1) = configuration (self s)
          ∧ Forall (opens_with (stream_of (self s))) (run s es).2) as [_ H];
    [|exact H].
  apply (run_from_invariant
           (λ c, configuration (self c.1) = configuration (self s)
                 ∧ Forall (opens_with (stream_of (self s))) c.2)
           (λ e, ¬ is_set_audio_format e)); [|done|by split].
  clear. intros c e He [Hc Hf]. simpl. split.
  - by rewrite step_configuration.
  - apply Forall_app. split; [done|].
    replace (stream_of (self s)) with (stream_of (self c.1)); [apply step_opens|].
    unfold stream_of, configuration in *. injection Hc as Hsw Hch Hsr Hfm Hcs.
    by rewrite Hch, Hsr, Hfm, Hcs.
Qed.

Lemma not_start_not_set_audio_format (es : list event) :
  Forall (λ e, e ≠ Call CStart) es →
  (∀ sw ch sr, CSetAudioFormat sw ch sr ∉ calls_of es) →
  Forall (λ e, ¬ is_set_audio_format e) es.
Proof.
  intros _ H. induction es as [|e es IH]; [constructor|].
  constructor.
  - destruct e as [[sw ch sr| | | |]| |]; simpl; try tauto.
    intros _. apply (H sw ch sr). simpl. by left.
  - apply IH. intros sw ch sr Hin. apply (H sw ch sr).
    destruct e; simpl; [by right|done..].
Qed.

(** X7: in [example_play_from_file] on a file with a valid header,
    however the worker and the caller interleave, [start] succeeds, the
    one stream opened has the format of the header and 1024 frames per
    buffer, and what is written are chunks of the file, in file order:
    since the example does not look at what [add_chunk] returns and stops
    after a fixed sleep, chunks may be missing, but none is written twice
    or out of order. *)
Theorem example_play_from_file_in_order (wf : Wave_read) (es : list event) :
  (0 < getsampwidth (wf_header wf))%Z →
  (0 < getnchannels (wf_header wf))%Z →
  (0 < getframerate (wf_header wf))%Z →
  calls_of es = example_play_from_file wf →
  let c := run new_player es in
  (CStart, RNone) ∈ returns c.2
  ∧ sublist (writes c.2) (file_chunks wf default_chunk_size)
  ∧ Forall (opens_with
              (mkStream (Some (format_mapping (getsampwidth (wf_header wf))))
                 (Some (getnchannels (wf_header wf)))
                 (Some (getframerate (wf_header wf))) 1024%Z)) c.2.
Proof.
  intros Hsw Hch Hsr Hcalls c.
  unfold example_play_from_file in Hcalls. simpl in Hcalls.
  apply calls_of_cons_inv in Hcalls as (pre1 & post1 & -> & Hpre1 & Hcalls).
  apply calls_of_cons_inv in Hcalls as (pre2 & post2 & -> & Hpre2 & Hcalls).
  set (sw := getsampwidth (wf_header wf)) in *.
  set (ch := getnchannels (wf_header wf)) in *.
  set (sr := getframerate (wf_header wf)) in *.
  set (s1 := mkSys (set_audio_format (init default_chunk_size) sw ch sr) [] M_Idle).
  assert (run new_player (pre1 ++ Call (CSetAudioFormat sw ch sr) :: pre2)
          = (s1, [ORet (CSetAudioFormat sw ch sr) RNone])) as Hrun1.
  { unfold run. rewrite run_from_app, idle_run by done.
    rewrite run_from_cons. unfold step_cfg. simpl.
    by rewrite idle_run. }
  assert (c = ((run s1 (Call CStart :: post2)).1,
               [ORet (CSetAudioFormat sw ch sr) RNone]
               ++ (run s1 (Call CStart :: post2)).2)) as Hc.
  { unfold c.
    replace (pre1 ++ Call (CSetAudioFormat sw ch sr) :: pre2 ++ Call CStart :: post2)
      with ((pre1 ++ Call (CSetAudioFormat sw ch sr) :: pre2)
            ++ Call CStart :: post2) by (by rewrite <- app_assoc).
    rewrite run_app, Hrun1. apply run_from_shift. }
  assert (ready s1) as Hready.
  { repeat split. unfold format_is_set. simpl.
    rewrite (proj2 (Z.eqb_neq sw 0)), (proj2 (Z.eqb_neq ch 0)),
      (proj2 (Z.eqb_neq sr 0)) by lia. done. }
  assert (CStart ∉ calls_of post2) as Hns.
  { rewrite Hcalls. intros Hin. apply elem_of_app in Hin as [Hin|Hin].
    - apply list_elem_of_fmap in Hin as (? & ? & _). done.
    - apply elem_of_cons in Hin as [?|Hin]; [done|].
      apply elem_of_cons in Hin as [?|Hin]; [done|]. by apply elem_of_nil in Hin. }
  pose proof (calls_of_not_start post2 Hns) as Hpost.
  assert (offered post2 = file_chunks wf default_chunk_size) as Hoff.
  { rewrite offered_calls_of, Hcalls, omap_app. simpl. rewrite app_nil_r.
    generalize (file_chunks wf default_chunk_size). intros l.
    induction l as [|x l IH]; [done|]. simpl. by f_equal. }
  rewrite Hc. cbn [fst snd]. split; [|split].
  - rewrite returns_app. apply elem_of_app. right.
    rewrite run_cons. cbn [snd]. rewrite returns_app. apply elem_of_app. left.
    simpl. unfold start. simpl.
    destruct Hready as (_ & _ & Hf & _). simpl in Hf. rewrite Hf. simpl.
    apply elem_of_cons. by left.
  - rewrite writes_app. simpl. rewrite <- Hoff.
    etrans; [apply (flowing_writes _ _ (session_flowing s1 post2 Hready Hpost))|].
    pose proof (run_puts_offered (Call CStart :: post2) s1) as H.
    by rewrite offered_cons in H.
  - apply Forall_app. split; [repeat constructor|].
    apply (run_opens (Call CStart :: post2) s1).
    constructor; [simpl; tauto|].
    apply not_start_not_set_audio_format; [done|].
    intros sw' ch' sr' Hin. rewrite Hcalls in Hin.
    apply elem_of_app in Hin as [Hin|Hin].
    + apply list_elem_of_fmap in Hin as (? & ? & _). done.
    + apply elem_of_cons in Hin as [?|Hin]; [done|].
      apply elem_of_cons in Hin as [?|Hin]; [done|]. by apply elem_of_nil in Hin.
Qed.

Lemma example_play_from_file_in_order_witness :
  let wf := mkWave (mkHeader 2 1 44100) (replicate 5000 "a"%byte) in
  let es := [Call (CSetAudioFormat 2 1 44100); Call CStart; Work 0 true]
            ++ ((λ c, Call (CAddChunk (Some c))) <$> file_chunks wf 1024)
            ++ [Work 0 true; Work 0 true; Work 0 true; Call CStop; Main true;
                Work 0 true; Main true; Main false; Main false; Call CClose] in
  sublist (writes (run new_player es).2) (file_chunks wf default_chunk_size).
Proof.
  intros wf es.
  destruct (example_play_from_file_in_order wf es) as (_ & H & _).
  - done.
  - done.
  - done.
  - vm_compute. reflexivity.
  - exact H.
Defined.

(** ** start does not empty the queue *)

Lemma reachable_qsize (s : sys) :
  reachable s → qsize (audio_queue (self s)) ≤ maxsize.
Proof.
  intros (cs & es & ->).
  apply (run_from_sys_invariant
           (λ s, qsize (audio_queue (self s)) ≤ maxsize) (λ _, True));
    [intros; by apply step_qsize|by apply Forall_true|].
  simpl. unfold qsize, maxsize. simpl. lia.
Qed.

Lemma put_trace_facts (l : list chunk) :
  writes (put_trace l) = [] ∧ puts (put_trace l) = Some <$> l
  ∧ accepted_all (put_trace l) ∧ failures (put_trace l) = 0
  ∧ discards (put_trace l) = [].
Proof.
  unfold put_trace, accepted_all, writes, puts, discards.
  repeat split.
  - induction l as [|c l IH]; simpl; done.
  - induction l as [|c l IH]; simpl; [done|]. by f_equal.
  - apply Forall_fmap, Forall_true. done.
  - induction l as [|c l IH]; simpl; done.
  - induction l as [|c l IH]; simpl; done.
Qed.

(** X8: [start] does not empty the queue.  On a player that is not
    playing, whose threads have ended and whose queue still holds chunks
    (those left behind by a session that a device failure ended), [start]
    starts a worker that writes these chunks first, in order. *)
Theorem start_plays_what_is_queued (s : sys) (l : list chunk) (k : nat) :
  reachable s →
  caller s = M_Idle →
  is_playing (self s) = false →
  format_is_set (self s) = true →
  threads s = replicate (length (threads s)) W_End →
  items (audio_queue (self s)) = Some <$> l →
  4 * length l + 2 ≤ k →
  let tid := length (threads s) in
  let c := run s (Call CStart :: replicate k (Work tid true)) in
  writes c.2 = l
  ∧ items (audio_queue (self c.1)) = []
  ∧ is_playing (self c.1) = true.
Proof.
  intros Hr Hm Hp Hf Ht Hit Hk tid c.
  pose proof (reachable_qsize s Hr) as Hq.
  pose proof (inv_tasks s (reachable_inv s Hr)) as Hu.
  unfold qsize in Hq, Hu. rewrite Hit, length_fmap in Hq, Hu.
  destruct (put_trace_facts l) as (Hw0 & Hp0 & Ha0 & Hf0 & Hd0).
  assert (playing tid l (step_cfg (s, put_trace l) (Call CStart))) as H1.
  { subst tid. clear c. destruct s as [p ths m]. simpl in *. subst m.
    unfold step_cfg. simpl. unfold start. simpl. rewrite Hp, Hf. simpl.
    apply (mkPlaying _ _ _ W_Open l); simpl.
    - done.
    - done.
    - by rewrite <- Ht.
    - done.
    - done.
    - by rewrite writes_app, Hw0.
    - lia.
    - by rewrite puts_app, Hp0, app_nil_r.
    - apply Forall_app. split; [done|]. repeat constructor.
    - by rewrite failures_app, discards_app, Hf0, Hd0. }
  destruct (playing_drain tid l k _ Hq H1) as [H2 H0].
  { pose proof (playing_work_bound _ _ _ H1). lia. }
  destruct (playing_work_done _ _ _ H2 H0) as [Hw Hi].
  rewrite <- run_from_cons, run_from_shift in H2, Hw, Hi.
  fold c in H2, Hw, Hi. cbn [fst snd] in *.
  rewrite writes_app, Hw0 in Hw.
  split; [done|]. split; [done|]. by destruct H2.
Qed.

Lemma start_plays_what_is_queued_witness :
  let a := ["a"]%byte in
  let b := ["b"]%byte in
  let s := (run new_player
              [Call (CSetAudioFormat 2 1 44100); Call CStart;
               Call (CAddChunk (Some a)); Call (CAddChunk (Some b));
               Call (CAddChunk (Some a)); Work 0 true; Work 0 true; Work 0 true;
               Work 0 false; Work 0 true; Work 0 true]).1 in
  writes (run s (Call CStart :: replicate 10 (Work 1 true))).2 = [b; a].
Proof.
  intros a b s.
  destruct (start_plays_what_is_queued s [b; a] 10) as (H & _).
  - eexists default_chunk_size, _. reflexivity.
  - reflexivity.
  - reflexivity.
  - reflexivity.
  - reflexivity.
  - reflexivity.
  - simpl. lia.
  - exact H.
Defined.

(** ** A device that cannot be opened *)

Lemma insert_replicate_ended (n j : nat) :
  <[j:=W_End]> (replicate n W_End) = replicate n W_End.
Proof.
  destruct (decide (j < n)) as [Hj|Hj].
  - apply list_insert_id. by apply lookup_replicate.
  - apply list_insert_ge. rewrite length_replicate. lia.
Qed.

Lemma replicate_ended_snoc (n : nat) :
  replicate n W_End ++ [W_End] = replicate (S n) W_End.
Proof. induction n as [|n IH]; simpl; [done|]. by f_equal. Qed.

Lemma mute_step (n : nat) (s : sys) (e : event) :
  not_stopped e → mute n s →
  mute n (step s e).1 ∧ writes (step s e).2 = []
  ∧ Forall only_start_raises (step s e).2.
Proof.
  intros [Hs Hc] (Hm & Hp & Ht). destruct s as [p ths m]. simpl in *. subst.
  unfold mute. destruct e as [c|t|j ok].
  - destruct c; try done; simpl; unfold start, add_chunk; simpl; rewrite ?Hp;
      try destruct (put_nowait (audio_queue p) x); simpl;
      (split; [done|split; [done|repeat constructor]]).
  - simpl. split; [done|split; [done|constructor]].
  - simpl. destruct (replicate n W_End !! j) as [w|] eqn:Hl; simpl.
    + apply lookup_replicate in Hl as [-> _]. simpl.
      rewrite insert_replicate_ended. split; [done|split; [done|constructor]].
    + split; [done|split; [done|constructor]].
Qed.

(** X9: when the device cannot be opened, the worker dies before its loop
    and [is_playing] stays [True].  Until [stop] or [close] is called the
    player is mute: nothing is ever written, [start] returns at once
    without starting a thread, and no method raises, while [add_chunk]
    goes on accepting chunks. *)
Theorem failed_open_is_silent (s : sys) (es : list event) :
  ready s →
  Forall not_stopped es →
  let tid := length (threads s) in
  let c := run s (Call CStart :: Work tid false :: es) in
  is_playing (self c.1) = true
  ∧ caller c.1 = M_Idle
  ∧ threads c.1 = replicate (S tid) W_End
  ∧ writes c.2 = []
  ∧ Forall only_start_raises c.2
  ∧ ∀ x, qsize (audio_queue (self c.1)) < maxsize →
         (add_chunk (self c.1) x).1 = true.
Proof.
  intros Hs Hes tid c.
  assert (mute (S tid) c.1 ∧ writes c.2 = [] ∧ Forall only_start_raises c.2)
    as ((Hm & Hp & Ht) & Hw & Hr).
  { unfold c, run. rewrite !run_from_cons.
    apply (run_from_invariant
             (λ c, mute (S tid) c.1 ∧ writes c.2 = []
                   ∧ Forall only_start_raises c.2) not_stopped); [|done|].
    - clear. intros c e He (Hm & Hw & Hr).
      destruct (mute_step _ _ _ He Hm) as (Hm' & Hw' & Hr').
      simpl. rewrite writes_app, Hw, Hw'. split; [done|]. split; [done|].
      by apply Forall_app.
    - subst tid. destruct Hs as (Hm & Hp & Hf & Hit & Ht).
      destruct s as [p ths m]. simpl in *. subst m.
      unfold step_cfg. simpl. unfold start. simpl. rewrite Hp, Hf. simpl.
      rewrite lookup_app_r by done. rewrite Nat.sub_diag. simpl.
      rewrite insert_app_r_alt by done. rewrite Nat.sub_diag. simpl.
      unfold mute. simpl. repeat split; [|repeat constructor].
      set (n := length ths) in *. clearbody n. subst ths.
      apply replicate_ended_snoc. }
  repeat split; try done.
  intros x Hq. unfold add_chunk. rewrite Hp. by rewrite put_nowait_Some.
Qed.

Lemma failed_open_is_silent_witness :
  let s := (run new_player [Call (CSetAudioFormat 2 1 44100)]).1 in
  let es := add_calls (replicate 3 (Some ["a"]%byte))
            ++ [Work 0 true; Call CStart; Work 0 true; Main true] in
  writes (run s (Call CStart :: Work 0 false :: es)).2 = [].
Proof.
  intros s es.
  destruct (failed_open_is_silent s es) as (_ & _ & _ & H & _).
  - repeat split.
  - repeat constructor; done.
  - exact H.
Defined.

(** ** One worker at a time *)

Lemma ended_or_not (w : wpc) : w = W_End ∨ w ≠ W_End.
Proof. destruct w; (by left) || (by right). Qed.

Lemma one_worker_step (s : sys) (e : event) :
  no_timeout e → sys_inv s → one_worker s → one_worker (step s e).1.
Proof.
  intros He [_ Hb _] Hs. destruct s as [p ths m]. simpl in *.
  destruct Hs as [Ht Hj|n w Ht Hj Hw]; simpl in *; subst ths.
  - (* no thread yet *)
    destruct e as [c|t|j ok].
    + destruct m; [|by apply no_worker..].
      destruct c; simpl; unfold start, stop, close, stop_from, stop_return, add_chunk;
        simpl; repeat case_match; simpl; try (by apply no_worker).
      by apply (last_worker _ 0 W_Open).
    + unfold step, stop_resume, stop_return. simpl.
      repeat case_match; simpl; simplify_eq; by apply no_worker.
    + by apply no_worker.
  - destruct e as [c|t|j ok].
    + (* a call *)
      destruct m; [|by apply (last_worker _ n w)..].
      assert (is_playing p = false → w = W_End) as Hend.
      { intros Hp. destruct (ended_or_not w) as [|Hne]; [done|].
        by destruct (Hw Hne Hp). }
      destruct c; simpl; unfold start, stop, close, stop_from, stop_return, add_chunk;
        simpl; repeat case_match; simpl.
      all: try (apply (last_worker _ n w); simpl; try done;
                intros Hne Hp; first [ by rewrite Hend in Hne | congruence ]).
      rewrite Hend by done. rewrite replicate_ended_snoc.
      apply (last_worker _ (S n) W_Open); simpl; try done.
      by rewrite length_replicate.
    + (* the caller inside stop *)
      assert (t = false) as -> by (destruct t; [by destruct He|done]).
      unfold step, stop_resume, stop_return, thread_ended. simpl. rewrite Hj.
      rewrite lookup_last_thread.
      assert (¬ waiting m → m ≠ M_Idle → w = W_End) as Hend.
      { intros H1 H3. destruct (ended_or_not w) as [|Hne]; [done|].
        by specialize (Hw Hne (Hb H3)). }
      destruct m as [|cl|cl|cl|cl|cl]; simpl.
      * by apply (last_worker _ n w).
      * repeat case_match; simpl; apply (last_worker _ n w); simpl; done.
      * destruct w; simpl; (eapply (last_worker _ n); [reflexivity|done|]);
          simpl; done.
      * rewrite Hend by (simpl; tauto || done).
        repeat case_match; simpl; by apply (last_worker _ n W_End).
      * rewrite Hend by (simpl; tauto || done).
        repeat case_match; simpl; by apply (last_worker _ n W_End).
      * rewrite Hend by (simpl; tauto || done).
        repeat case_match; simpl; by apply (last_worker _ n W_End).
    + (* a worker *)
      destruct (decide (j = n)) as [->|Hjn].
      2:{ rewrite step_other_thread by done. by apply (last_worker _ n w). }
      unfold step. simpl. rewrite lookup_last_thread, insert_last_thread.
      destruct w; simpl; repeat case_match; simpl;
        (eapply (last_worker _ n); [reflexivity|done|]); simpl;
        try done; intros Hne Hp; first [by apply Hw | congruence].
Qed.

(** X10: as long as no [join] gives up waiting, at most one worker is at
    work at any time: in every such run from [__init__] every thread but
    the last one started has run [_play_worker] to its end or died opening
    the device, and the last one is [play_thread].  With a [join] that
    gives up, [stop] returns while the worker is at work, and the next
    [start] starts a second one beside it. *)
Theorem one_worker_at_a_time (cs : Z) (es : list event) (i : nat) (w : wpc) :
  Forall no_timeout es →
  let s := (run (mkSys (init cs) [] M_Idle) es).1 in
  threads s !! i = Some w →
  w ≠ W_End →
  S i = length (threads s) ∧ play_thread (self s) = Some i.
Proof.
  intros Hes s Hi Hw.
  assert (sys_inv s ∧ one_worker s) as [_ Hs].
  { apply (run_from_sys_invariant (λ s, sys_inv s ∧ one_worker s) no_timeout);
      [|done|].
    - intros s' e He [H1 H2]. split; [by apply sys_inv_step|].
      by apply one_worker_step.
    - split; [apply sys_inv_init|by apply no_worker]. }
  destruct Hs as [Ht Hj|n w' Ht Hj _].
  - by rewrite Ht in Hi.
  - rewrite Ht in Hi |- *.
    destruct (decide (i = n)) as [->|Hne].
    + by rewrite length_app, length_replicate, Nat.add_1_r.
    + by apply lookup_other_thread in Hi.
Qed.

Lemma one_worker_at_a_time_witness :
  let es := [Call (CSetAudioFormat 2 1 44100); Call CStart; Work 0 true;
             Call CStop; Main false; Main false; Work 0 true; Work 0 true;
             Work 0 true; Main false; Main false; Main false; Main false;
             Main false; Call CStart] in
  play_thread (self (run new_player es).1) = Some 1.
Proof.
  intros es.
  destruct (one_worker_at_a_time default_chunk_size es 1 W_Open) as [_ H].
  - repeat constructor; done.
  - reflexivity.
  - done.
  - exact H.
Defined.

(** The bound on [join] cannot be dropped. *)
Lemma two_workers_alive :
  threads (run new_player two_workers_run).1 = [W_Open; W_Open].
Proof. reflexivity. Qed.

(** ** [add_chunk(None)] *)

Lemma ending_begin (tid : nat) (acc : list chunk) (c : sys * list obs) :
  playing tid acc c →
  qsize (audio_queue (self c.1)) < maxsize →
  ending tid acc (4 * length acc + 6) (step_cfg c (Call (CAddChunk None))).
Proof.
  intros [w pending Hm Hp Ht Hl Hq Ho Hu Hpu Ha Hqt] Hn.
  destruct c as [[p ths m] tr]. simpl in *. subst m ths.
  unfold step_cfg. simpl. unfold add_chunk. rewrite Hp.
  rewrite put_nowait_Some by done. simpl.
  apply (mkEnding _ _ _ _ w pending); simpl.
  - done.
  - done.
  - destruct w; simpl in *; done.
  - destruct w; simpl in *; try done; exists []; by rewrite Hq.
  - rewrite writes_app. simpl. by rewrite app_nil_r.
  - lia.
  - rewrite <- Ho, !length_app. destruct w; simpl; lia.
Qed.

Ltac close_ending :=
  simpl in *; rewrite ?app_nil_r in *;
  rewrite ?writes_app; simpl; rewrite ?app_nil_r;
  first [ done | lia | by rewrite <- ?app_assoc | by eexists ].

Lemma ending_step_keeps (tid : nat) (acc : list chunk) (n : nat)
    (c : sys * list obs) (e : event) :
  ending tid acc n c → ending_step tid e →
  ending tid acc (n - (if is_work tid e then 1 else 0)) (step_cfg c e).
Proof.
  intros [w pending Hm Ht Hs Hq Ho Hu Hn] He.
  destruct c as [[p ths m] tr]. simpl in *. subst m ths.
  destruct e as [[| |x| |]|t|j ok]; simpl in He; try done.
  - (* add_chunk *)
    unfold step_cfg. simpl. unfold add_chunk, put_nowait.
    rewrite Nat.sub_0_r.
    repeat case_match; simplify_eq/=;
      apply (mkEnding _ _ _ _ w pending); try close_ending.
    destruct w; simpl in *; try done; destruct Hq as [rest ->];
      exists (rest ++ [x]); by rewrite <- app_assoc.
  - (* the worker *)
    destruct He as [-> ->]. unfold step_cfg. simpl.
    rewrite bool_decide_eq_true_2 by done.
    rewrite lookup_last_thread, insert_last_thread.
    destruct w; simpl in *.
    + apply (mkEnding _ _ _ _ W_Loop pending); close_ending.
    + destruct Hs as [Hp Hst]. rewrite Hp. simpl.
      apply (mkEnding _ _ _ _ W_Get pending); close_ending.
    + destruct Hq as [rest Hq]. unfold get_nowait. rewrite Hq.
      destruct pending as [|ck pending]; simpl.
      * apply (mkEnding _ _ _ _ W_Close []); close_ending.
      * apply (mkEnding _ _ _ _ (W_Write ck) pending); close_ending.
    + destruct Hs as [Hp [st Hst]]. rewrite Hst. simpl.
      apply (mkEnding _ _ _ _ W_TaskDone pending); close_ending.
    + unfold task_done.
      destruct (unfinished_tasks (audio_queue p)) as [|u] eqn:Hun; [lia|].
      simpl.
      apply (mkEnding _ _ _ _ W_Loop pending); close_ending.
    + destruct Hs as [Hp [st Hst]]. rewrite Hst. simpl.
      apply (mkEnding _ _ _ _ W_Clear pending); close_ending.
    + apply (mkEnding _ _ _ _ W_End pending); close_ending.
    + apply (mkEnding _ _ _ _ W_End pending); close_ending.
Qed.

Lemma ending_run (tid : nat) (es : list event) (acc : list chunk) (n : nat)
    (c : sys * list obs) :
  ending tid acc n c → Forall (ending_step tid) es →
  ending tid acc (n - length (filter (is_work tid) es)) (run_from c es).
Proof.
  revert n c. induction es as [|e es IH]; intros n c Hc Hes.
  - simpl. by rewrite Nat.sub_0_r.
  - inversion_clear Hes as [|?? He Hes'].
    pose proof (ending_step_keeps tid acc n c e Hc He) as Hc'.
    rewrite run_from_cons.
    pose proof (IH _ (step_cfg c e) Hc' Hes') as Hc''.
    destruct (is_work tid e) eqn:E.
    + rewrite filter_cons_True by (by rewrite E). simpl.
      by replace (n - S (length (filter (is_work tid) es)))
        with (n - 1 - length (filter (is_work tid) es)) by lia.
    + rewrite filter_cons_False by (rewrite E; simpl; tauto).
      by rewrite Nat.sub_0_r in Hc''.
Qed.


